(** * Trivia backend: rooms, games and the answer barrier of [server.js]

    A shallow embedding of the request and socket handlers of [server.js].
    The two MongoDB collections the handlers mutate (rooms and games) are
    lists in insertion order; a document is addressed by its position, which
    never changes because no handler deletes or reorders documents.  Every
    handler is a function from the store to the new store together with what
    it sends (HTTP response, socket.io emissions).

    JavaScript numbers are doubles.  Counts, indices, scores, times and
    dates are modelled by integers ([Z]); the arithmetic of the handlers is
    exact on them as long as the values are safe integers (of magnitude
    below 2^53), and the properties that depend on an exact quotient or sum
    carry that bound.  A room's [maxPlayers], which is stored as it is sent
    and only ever compared, is a rational ([Qc]). *)

From stdpp Require Import base option list strings numbers pretty sorting.
From Stdlib Require Import ZArith Lia QArith Qcanon.

Local Open Scope Z_scope.

(** ** Database models *)

Inductive RoomStatus := waiting | in_progress | completed.

Global Instance RoomStatus_eq_dec : EqDecision RoomStatus.
Proof. solve_decision. Defined.

Module Player.
Record t := mk { id : string; name : string; ready : bool; score : Z }.
Definition set_ready (b : bool) (p : t) : t := mk (id p) (name p) b (score p).
End Player.

Module Room.
Record t := mk {
  code : string;
  host : string;
  category : string;
  quizCount : Z;
  maxPlayers : Qc;
  players : list Player.t;
  isPublic : bool;
  status : RoomStatus;
  createdAt : Z
}.
Definition set_players (ps : list Player.t) (r : t) : t :=
  mk (code r) (host r) (category r) (quizCount r) (maxPlayers r) ps
     (isPublic r) (status r) (createdAt r).
Definition set_status (s : RoomStatus) (r : t) : t :=
  mk (code r) (host r) (category r) (quizCount r) (maxPlayers r) (players r)
     (isPublic r) s (createdAt r).
End Room.

Module Answer.
Record t := mk {
  questionIndex : Z;
  answer : string;
  isCorrect : bool;
  timeTaken : Z
}.
End Answer.

Module Score.
Record t := mk {
  playerId : string;
  playerName : string;
  score : Z;
  answers : list Answer.t
}.
End Score.

Module GameQuestion.
Record t := mk {
  text : string;
  options : list string;
  correctAnswer : string;
  timeLimit : Z
}.
End GameQuestion.

Module Game.
Record t := mk {
  roomCode : string;
  questions : list GameQuestion.t;
  currentQuestion : Z;
  scores : list Score.t;
  startedAt : Z;
  endedAt : option Z
}.
Definition set_scores (ss : list Score.t) (g : t) : t :=
  mk (roomCode g) (questions g) (currentQuestion g) ss (startedAt g) (endedAt g).
Definition set_currentQuestion (c : Z) (g : t) : t :=
  mk (roomCode g) (questions g) c (scores g) (startedAt g) (endedAt g).
Definition set_endedAt (d : Z) (g : t) : t :=
  mk (roomCode g) (questions g) (currentQuestion g) (scores g) (startedAt g) (Some d).
End Game.

(** A document of the [Question] collection. *)
Module Question.
Record t := mk {
  category : string;
  difficulty : string;
  question : string;
  correctAnswer : string;
  incorrectAnswers : list string;
  source : string
}.
End Question.

(** One element of [response.data.results] of the OpenTDB request. *)
Module ApiQuestion.
Record t := mk {
  category : string;
  difficulty : string;
  question : string;
  correct_answer : string;
  incorrect_answers : list string
}.
End ApiQuestion.

(** The objects [fetchQuestions] returns. *)
Module Fetched.
Record t := mk {
  text : string;
  correctAnswer : string;
  options : list string;
  category : string;
  difficulty : string
}.
End Fetched.

Global Instance Player_eq_dec : EqDecision Player.t.
Proof. solve_decision. Defined.
Global Instance Room_eq_dec : EqDecision Room.t.
Proof. solve_decision. Defined.
Global Instance Answer_eq_dec : EqDecision Answer.t.
Proof. solve_decision. Defined.
Global Instance Score_eq_dec : EqDecision Score.t.
Proof. solve_decision. Defined.
Global Instance GameQuestion_eq_dec : EqDecision GameQuestion.t.
Proof. solve_decision. Defined.
Global Instance Game_eq_dec : EqDecision Game.t.
Proof. solve_decision. Defined.

(** ** What a payload carries

    The socket handlers destructure their payload without validating it; the
    schema casts a field when the document is built.  A [questionIndex]
    arrives as a number or as a string; the strings modelled are the decimal
    numerals, [numeral n] being the string [n.toString()].  An [answer]
    arrives as a string, or as a value that is not a string and that the
    schema casts to one, as it does a number or a boolean, by its string
    form; [literal s] is such a value, [s] the string it is cast to. *)

Inductive IndexValue := number (n : Z) | numeral (n : Z).

Inductive AnswerValue := text (s : string) | literal (s : string).

Global Instance IndexValue_eq_dec : EqDecision IndexValue.
Proof. solve_decision. Defined.
Global Instance AnswerValue_eq_dec : EqDecision AnswerValue.
Proof. solve_decision. Defined.

(** The number a [questionIndex] denotes: the number itself, or the one its
    digits spell.  It is the position [array[questionIndex]] reads, and what
    the schema ([questionIndex: Number]) stores for the position of a
    question. *)
Definition numberOf (v : IndexValue) : Z :=
  match v with number n => n | numeral n => n end.

(** What the schema ([answer: String]) stores. *)
Definition stringOf (v : AnswerValue) : string :=
  match v with text s => s | literal s => s end.

(** ** The store and what handlers send *)

Record Store := mkStore { rooms : list Room.t; games : list Game.t }.

Definition set_rooms (rs : list Room.t) (st : Store) : Store := mkStore rs (games st).
Definition set_games (gs : list Game.t) (st : Store) : Store := mkStore (rooms st) gs.

(** [doc.save()] of a document read at position [i], by a handler that
    nothing has interrupted since it read the document. *)
Definition saveRoom (i : nat) (r : Room.t) (st : Store) : Store :=
  set_rooms (<[i:=r]> (rooms st)) st.
Definition saveGame (i : nat) (g : Game.t) (st : Store) : Store :=
  set_games (<[i:=g]> (games st)) st.
(** [room.save()] after [room.players.push(player)]: mongoose sends the
    push alone ([$push]), which the database applies to the document at
    position [i] as it is stored by then. *)
Definition pushPlayer (i : nat) (player : Player.t) (st : Store) : Store :=
  set_rooms (alter (λ r, Room.set_players (Room.players r ++ [player]) r) i (rooms st)) st.
Global Arguments pushPlayer : simpl never.
(** [doc.save()] of a document made with [new]. *)
Definition insertRoom (r : Room.t) (st : Store) : Store :=
  set_rooms (rooms st ++ [r]) st.
Definition insertGame (g : Game.t) (st : Store) : Store :=
  set_games (games st ++ [g]) st.

(** [Room.findOne({ code })] and [Game.findOne({ roomCode })]: the first
    matching document, with its position. *)
Definition findRoom (code : string) (st : Store) : option (nat * Room.t) :=
  list_find (λ r, Room.code r = code) (rooms st).
Definition findGame (roomCode : string) (st : Store) : option (nat * Game.t) :=
  list_find (λ g, Game.roomCode g = roomCode) (games st).

(** Payloads of the socket.io events, field by field as the object literals
    of the source build them. *)
Inductive Event :=
| roomUpdated (room : Room.t)
| canStartGame
| gameStarted (questionIndex : Z) (question : option GameQuestion.t) (totalQuestions : Z)
| nextQuestion (questionIndex : Z) (question : option GameQuestion.t)
| answerReceived (playerId : string) (questionIndex : IndexValue) (isCorrect : bool)
| gameEnded (scores : list Score.t)
| gameError (message : string).

Global Instance Event_eq_dec : EqDecision Event.
Proof. solve_decision. Defined.

(** [io.to(channel).emit(event)]. *)
Definition Emit : Type := string * Event.

(** How a socket handler leaves its [try]: by returning, or through
    [catch (err) { console.error(err) }]. *)
Inductive Outcome := Returned | Logged (err : string).

(** The HTTP responses: [res.json(room)] or [res.status(n).json({ error })]. *)
Inductive Response :=
| json_room (room : Room.t)
| json_error (status : Z) (error : string).

(** ** JavaScript helpers *)

(** [array[i]] for an integer [i]: [undefined] outside the array. *)
Definition index {A} (l : list A) (i : Z) : option A :=
  if decide (0 ≤ i) then l !! Z.to_nat i else None.

(** [array.slice(0, n)] for an integer [n]; a negative [n] counts from the end. *)
Definition slice0 {A} (n : Z) (l : list A) : list A :=
  if decide (0 ≤ n) then take (Z.to_nat n) l
  else take (Z.to_nat (Z.of_nat (length l) + n)) l.

(** [array.sort(cmp)]: a stable sort; [cmp a b ≤ 0] keeps [a] before [b]. *)
Fixpoint sort_insert {A} (cmp : A → A → Z) (x : A) (l : list A) : list A :=
  match l with
  | [] => [x]
  | y :: l' => if decide (cmp x y ≤ 0) then x :: y :: l' else y :: sort_insert cmp x l'
  end.

Definition sort {A} (cmp : A → A → Z) (l : list A) : list A :=
  foldr (sort_insert cmp) [] l.

(** [text.replace(/pat/g, rep)] for a literal pattern: [skip] counts the
    characters of a match still to drop. *)
Fixpoint replaceAll_go (pat rep : string) (skip : nat) (s : string) : string :=
  match s with
  | EmptyString => EmptyString
  | String c s' =>
      match skip with
      | S k => replaceAll_go pat rep k s'
      | O =>
          if String.prefix pat s
          then rep +:+ replaceAll_go pat rep (Nat.pred (String.length pat)) s'
          else String c (replaceAll_go pat rep O s')
      end
  end.

Definition replaceAll (pat rep s : string) : string := replaceAll_go pat rep O s.

Definition decodeHtmlEntities (text : string) : string :=
  replaceAll "&#039;" "'"
    (replaceAll "&gt;" ">"
      (replaceAll "&lt;" "<"
        (replaceAll "&amp;" "&"
          (replaceAll "&quot;" (String (Ascii.ascii_of_nat 34) EmptyString) text)))).

(** What [categories[category] || 0] evaluates to: an id of the table, 0,
    or, for the name of a property that every object inherits, that
    property (a function or the prototype, none of them falsy). *)
Inductive CategoryId := categoryId (n : Z) | inherited (property : string).

(** [Object.getOwnPropertyNames(Object.prototype)]. *)
Definition objectPrototype : list string :=
  ["constructor"; "__defineGetter__"; "__defineSetter__"; "hasOwnProperty";
   "__lookupGetter__"; "__lookupSetter__"; "isPrototypeOf"; "propertyIsEnumerable";
   "toString"; "valueOf"; "__proto__"; "toLocaleString"].

Definition getCategoryId (category : string) : CategoryId :=
  if decide (category = "General Knowledge") then categoryId 9
  else if decide (category = "Science") then categoryId 17
  else if decide (category = "History") then categoryId 23
  else if decide (category = "Movies") then categoryId 11
  else if decide (category = "Sports") then categoryId 21
  else if decide (category ∈ objectPrototype) then inherited category
  else categoryId 0.

(** [n.toString()] for an integer [n]. *)
Definition toString (n : Z) : string := pretty n.

(** ** Scoring *)

(** [Math.max(0, 10 - Math.floor(timeTaken / 1000))], for an integer
    [timeTaken]; the quotient computed on doubles has this floor when
    [timeTaken] is a safe integer. *)
Definition timeBonus (timeTaken : Z) : Z := Z.max 0 (10 - timeTaken / 1000).

(** The increment of [playerScore.score] in [submitAnswer]; the handler
    adds it on doubles, exactly when the sum is a safe integer. *)
Definition scoreDelta (isCorrect : bool) (timeTaken : Z) : Z :=
  if isCorrect then 100 + timeBonus timeTaken * 10 else 0.

(** [(a, b) => b.score - a.score]. *)
Definition byScoreDesc (a b : Score.t) : Z := Score.score b - Score.score a.

(** [score.answers.some(a => a.questionIndex === questionIndex)]: a stored
    index is a number, which [===] never finds equal to a string. *)
Definition answered (questionIndex : IndexValue) (s : Score.t) : bool :=
  existsb (λ a, bool_decide (number (Answer.questionIndex a) = questionIndex))
    (Score.answers s).

(** ** Room registry: the HTTP routes *)

(** The player object every route pushes. *)
Definition newPlayer (uid playerName : string) : Player.t :=
  Player.mk uid playerName false 0.

(** POST /api/rooms.  [draw] is the value of
    [Math.floor(1000 + Math.random() * 9000)], [now] the clock. *)
Definition createRoom (uid : string) (draw now : Z)
    (category : string) (quizCount : Z) (maxPlayers : Qc) (playerName : string)
    (isPublic : bool) (st : Store) : Store * Response :=
  let code := toString draw in
  let room := Room.mk code uid category quizCount maxPlayers
                [newPlayer uid playerName] isPublic waiting now in
  (insertRoom room st, json_room room).

(** The filter of the quick-match query; ['players.1': { $exists: false }]
    holds when the array has no element at position 1. *)
Definition quickMatchable (r : Room.t) : Prop :=
  Room.isPublic r = true ∧ Room.category r = "Random" ∧
  Room.status r = waiting ∧ Room.players r !! 1%nat = None.

Global Instance quickMatchable_dec r : Decision (quickMatchable r).
Proof. unfold quickMatchable. apply _. Defined.

(** POST /api/rooms/quick-match, cut at its first [await]: the lookup ... *)
Definition quickMatch_find (st : Store) : option (nat * Room.t) :=
  list_find quickMatchable (rooms st).

(** ... and the rest of the handler, run on what the lookup returned. *)
Definition quickMatch_save (uid : string) (draw now : Z) (playerName : string)
    (found : option (nat * Room.t)) (st : Store) : Store * Response :=
  match found with
  | None =>
      let code := toString draw in
      let room := Room.mk code uid "Random" 5 (Qc_of_Z 2)
                    [newPlayer uid playerName] true waiting now in
      (insertRoom room st, json_room room)
  | Some (i, room) =>
      let player := newPlayer uid playerName in
      let room' := Room.set_players (Room.players room ++ [player]) room in
      (pushPlayer i player st, json_room room')
  end.

Definition quickMatch (uid : string) (draw now : Z) (playerName : string)
    (st : Store) : Store * Response :=
  quickMatch_save uid draw now playerName (quickMatch_find st) st.

(** POST /api/rooms/:code/join. *)
Definition joinRoom (uid code playerName : string) (st : Store)
    : Store * list Emit * Response :=
  match findRoom code st with
  | None => (st, [], json_error 404 "Room not found")
  | Some (i, room) =>
      if decide (Room.maxPlayers room ≤ Qc_of_Z (Z.of_nat (length (Room.players room))))%Qc
      then (st, [], json_error 400 "Room is full")
      else if decide (Room.status room ≠ waiting)
      then (st, [], json_error 400 "Game has already started")
      else
        let player := newPlayer uid playerName in
        let room' := Room.set_players (Room.players room ++ [player]) room in
        (pushPlayer i player st, [(Room.code room', roomUpdated room')], json_room room')
  end.

(** ** Session engine *)

Section Session.

(** The collaborators the source calls out to: the [$match]/[$sample]
    stages of the aggregation on the question collection, the OpenTDB
    request ([None] when the call throws), and the random comparator
    sort of [shuffleArray]. *)
Variable dbSample : string → Z → option (list Question.t).
Variable apiGet : Z → CategoryId → option (list ApiQuestion.t).
Variable shuffleArray : list string → list string.

(** The [$project] stage. *)
Definition project (d : Question.t) : Fetched.t :=
  Fetched.mk (Question.question d) (Question.correctAnswer d)
    (Question.correctAnswer d :: Question.incorrectAnswers d)
    (Question.category d) (Question.difficulty d).

(** The mapping of one OpenTDB result. *)
Definition fromApi (q : ApiQuestion.t) : Fetched.t :=
  Fetched.mk (decodeHtmlEntities (ApiQuestion.question q))
    (decodeHtmlEntities (ApiQuestion.correct_answer q))
    (shuffleArray ((decodeHtmlEntities <$> ApiQuestion.incorrect_answers q)
                    ++ [decodeHtmlEntities (ApiQuestion.correct_answer q)]))
    (ApiQuestion.category q) (ApiQuestion.difficulty q).

(** [fetchQuestions]; [None] is the rethrown
    [Error('Failed to fetch questions')]. *)
Definition fetchQuestions (category : string) (count : Z) : option (list Fetched.t) :=
  match dbSample category count with
  | None => None
  | Some docs =>
      let questions := project <$> docs in
      if decide (Z.of_nat (length questions) < count) then
        match apiGet count (getCategoryId category) with
        | None => None
        | Some results => Some (slice0 count (questions ++ (fromApi <$> results)))
        end
      else Some questions
  end.

Definition toGameQuestion (q : Fetched.t) : GameQuestion.t :=
  GameQuestion.mk (Fetched.text q) (Fetched.options q) (Fetched.correctAnswer q) 15000.

Definition toScore (p : Player.t) : Score.t :=
  Score.mk (Player.id p) (Player.name p) 0 [].

(** [startGame(room)], for the room document read at position [ri]. *)
Definition startGame (now : Z) (ri : nat) (room : Room.t) (st : Store)
    : Store * list Emit :=
  match fetchQuestions (Room.category room) (Room.quizCount room) with
  | None => (st, [(Room.code room, gameError "Failed to start game")])
  | Some questions =>
      let game := Game.mk (Room.code room) (toGameQuestion <$> questions) 0
                    (toScore <$> Room.players room) now None in
      let st1 := insertGame game st in
      let room' := Room.set_status in_progress room in
      let st2 := saveRoom ri room' st1 in
      (st2, [(Room.code room',
              gameStarted 0 (index (Game.questions game) 0)
                (Z.of_nat (length (Game.questions game))))])
  end.

(** socket.on('playerReady'). *)
Definition playerReady (uid : string) (now : Z) (roomCode : string)
    (isReady : bool) (st : Store) : Store * list Emit * Outcome :=
  match findRoom roomCode st with
  | None => (st, [], Returned)
  | Some (ri, room) =>
      match list_find (λ p, Player.id p = uid) (Room.players room) with
      | None => (st, [], Returned)
      | Some (pi, player) =>
          let room1 := Room.set_players
                         (<[pi:=Player.set_ready isReady player]> (Room.players room)) room in
          let st1 := saveRoom ri room1 st in
          let ev1 := [(roomCode, roomUpdated room1)] in
          if forallb Player.ready (Room.players room1)
             && bool_decide (1 ≤ length (Room.players room1))%nat
          then
            if decide (length (Room.players room1) = 1%nat) then
              let '(st2, ev2) := startGame now ri room1 st1 in
              (st2, ev1 ++ ev2, Returned)
            else (st1, ev1 ++ [(Room.host room1, canStartGame)], Returned)
          else (st1, ev1, Returned)
      end
  end.

(** socket.on('startGame'). *)
Definition startGameRequest (uid : string) (now : Z) (roomCode : string)
    (st : Store) : Store * list Emit * Outcome :=
  match findRoom roomCode st with
  | Some (ri, room) =>
      if decide (Room.host room = uid ∧ Room.status room = waiting)
      then let '(st', ev) := startGame now ri room st in (st', ev, Returned)
      else (st, [], Returned)
  | None => (st, [], Returned)
  end.

End Session.

(** socket.on('submitAnswer'), past its guards: [game] was read at position
    [gi], [playerScore] is its entry at position [si], [question] is
    [game.questions[questionIndex]].  [===] finds the stored [correctAnswer],
    a string, equal to the payload's [answer] only if that is the same
    string; the pushed answer holds the payload's values as the schema casts
    them. *)
Definition acceptAnswer (uid : string) (now : Z) (roomCode : string)
    (questionIndex : IndexValue) (answer : AnswerValue) (timeTaken : Z)
    (gi : nat) (game : Game.t) (si : nat) (playerScore : Score.t)
    (question : GameQuestion.t) (st : Store) : Store * list Emit * Outcome :=
  let isCorrect := bool_decide (text (GameQuestion.correctAnswer question) = answer) in
  let playerScore' :=
    Score.mk (Score.playerId playerScore) (Score.playerName playerScore)
      (Score.score playerScore + scoreDelta isCorrect timeTaken)
      (Score.answers playerScore
         ++ [Answer.mk (numberOf questionIndex) (stringOf answer) isCorrect timeTaken]) in
  let game1 := Game.set_scores (<[si:=playerScore']> (Game.scores game)) game in
  let st1 := saveGame gi game1 st in
  let ev1 := [(roomCode, answerReceived uid questionIndex isCorrect)] in
  if forallb (answered questionIndex) (Game.scores game1) then
    if decide (Game.currentQuestion game1 < Z.of_nat (length (Game.questions game1)) - 1)
    then
      let game2 := Game.set_currentQuestion (Game.currentQuestion game1 + 1) game1 in
      let st2 := saveGame gi game2 st1 in
      (st2,
       ev1 ++ [(roomCode,
                nextQuestion (Game.currentQuestion game2)
                  (index (Game.questions game2) (Game.currentQuestion game2)))],
       Returned)
    else
      let game2 := Game.set_endedAt now game1 in
      let st2 := saveGame gi game2 st1 in
      let st3 := match findRoom roomCode st2 with
                 | Some (ri, room) => saveRoom ri (Room.set_status completed room) st2
                 | None => st2
                 end in
      (st3,
       ev1 ++ [(roomCode, gameEnded (sort byScoreDesc (Game.scores game2)))],
       Returned)
  else (st1, ev1, Returned).

(** socket.on('submitAnswer').  The guard against a second answer compares
    the stored indices, which are numbers, with the payload's
    [questionIndex] by [===].  Reading [question.correctAnswer] of a
    question that does not exist throws, which the handler's [catch] logs. *)
Definition submitAnswer (uid : string) (now : Z) (roomCode : string)
    (questionIndex : IndexValue) (answer : AnswerValue) (timeTaken : Z) (st : Store)
    : Store * list Emit * Outcome :=
  match findGame roomCode st with
  | None => (st, [], Returned)
  | Some (gi, game) =>
      if Game.endedAt game is Some _ then (st, [], Returned) else
      match list_find (λ s, Score.playerId s = uid) (Game.scores game) with
      | None => (st, [], Returned)
      | Some (si, playerScore) =>
          match list_find (λ a, number (Answer.questionIndex a) = questionIndex)
                  (Score.answers playerScore) with
          | Some _ => (st, [], Returned)
          | None =>
              match index (Game.questions game) (numberOf questionIndex) with
              | None => (st, [], Logged "TypeError")
              | Some question =>
                  acceptAnswer uid now roomCode questionIndex answer timeTaken
                    gi game si playerScore question st
              end
          end
      end
  end.

(** ** Handlers in flight *)

(** A quick-match request between the [await]s of its handler: arrived,
    holding the result of its lookup, or answered. *)
Inductive Request :=
| Arrived (uid : string) (draw now : Z) (playerName : string)
| Looked (uid : string) (draw now : Z) (playerName : string)
    (found : option (nat * Room.t))
| Answered (response : Response).

(** The event loop resumes a handler up to its next [await]: the store
    operation the handler waits for is carried out. *)
Definition resume (r : Request) (st : Store) : Request * Store :=
  match r with
  | Arrived uid draw now playerName =>
      (Looked uid draw now playerName (quickMatch_find st), st)
  | Looked uid draw now playerName found =>
      let '(st', response) := quickMatch_save uid draw now playerName found st in
      (Answered response, st')
  | Answered _ => (r, st)
  end.

(** Nothing in the source orders the handlers: any request may be resumed
    next. *)
Definition resumeAt (i : nat) (cfg : list Request * Store) : list Request * Store :=
  match cfg.1 !! i with
  | Some r => let '(r', st') := resume r cfg.2 in (<[i:=r']> cfg.1, st')
  | None => cfg
  end.

Definition run (schedule : list nat) (cfg : list Request * Store) : list Request * Store :=
  foldl (λ cfg i, resumeAt i cfg) cfg schedule.

(** ** The read-only routes *)

(** GET /api/rooms/public. *)
Definition publicRooms (st : Store) : list Room.t :=
  filter (λ r, Room.isPublic r = true ∧ Room.status r = waiting) (rooms st).

(** GET /api/games/:roomCode. *)
Inductive GameResponse :=
| json_game (game : Game.t)
| json_game_error (status : Z) (error : string).

Definition getGame (roomCode : string) (st : Store) : GameResponse :=
  match findGame roomCode st with
  | None => json_game_error 404 "Game not found"
  | Some (_, game) => json_game game
  end.

(** socket.on('joinRoom'): what the joining socket is sent. *)
Definition joinRoomSocket (roomCode : string) (st : Store) : list Event :=
  match findRoom roomCode st with
  | Some (_, room) => [roomUpdated room]
  | None => []
  end.

(** ** Authentication *)

(** The character [&]. *)
Definition ampersand : Ascii.ascii := Ascii.ascii_of_nat 38.

(** The character [' ']. *)
Definition space : Ascii.ascii := Ascii.ascii_of_nat 32.

(** [text.split(sep)] for a separator of one character. *)
Fixpoint split (sep : Ascii.ascii) (s : string) : list string :=
  match s with
  | EmptyString => [EmptyString]
  | String c s' =>
      if decide (c = sep) then EmptyString :: split sep s'
      else match split sep s' with
           | w :: ws => String c w :: ws
           | [] => [String c EmptyString]
           end
  end.

(** What the middleware does with a request: [next()] with [req.user], or
    [res.status(n).json({ error })]. *)
Inductive AuthResult :=
| next (uid : string)
| denied (status : Z) (error : string).

(** What the socket middleware does: [next()] or [next(new Error(message))]. *)
Inductive SocketAuth :=
| connected (uid : string)
| refused (message : string).

Section Auth.

(** [admin.auth().verifyIdToken(token)]: the uid of the decoded token, or
    [None] when the call throws. *)
Variable verifyIdToken : string → option string.

(** [verifyToken]; [authorization] is [req.headers.authorization]. *)
Definition verifyToken (authorization : option string) : AuthResult :=
  match authorization ≫= (λ h, split space h !! 1%nat) with
  | None => denied 401 "Unauthorized"
  | Some token =>
      if decide (token = "") then denied 401 "Unauthorized"
      else match verifyIdToken token with
           | Some uid => next uid
           | None => denied 401 "Invalid token"
           end
  end.

(** [io.use(...)]; [token] is [socket.handshake.auth.token]. *)
Definition socketAuth (token : option string) : SocketAuth :=
  match token with
  | None => refused "Authentication error"
  | Some token =>
      if decide (token = "") then refused "Authentication error"
      else match verifyIdToken token with
           | Some uid => connected uid
           | None => refused "Authentication failed"
           end
  end.

End Auth.

(** ** Handlers one after the other *)

(** What the collaborators answer during one handler. *)
Record Collaborators := mkCollaborators {
  answer_dbSample : string → Z → option (list Question.t);
  answer_apiGet : Z → CategoryId → option (list ApiQuestion.t);
  answer_shuffleArray : list string → list string
}.

(** One authenticated request or socket event, with its arguments, the
    random draw and the clock it reads. *)
Inductive Action :=
| DoCreateRoom (uid : string) (draw now : Z) (category : string)
    (quizCount : Z) (maxPlayers : Qc) (playerName : string) (isPublic : bool)
| DoQuickMatch (uid : string) (draw now : Z) (playerName : string)
| DoJoinRoom (uid code playerName : string)
| DoPlayerReady (w : Collaborators) (uid : string) (now : Z) (roomCode : string)
    (isReady : bool)
| DoStartGame (w : Collaborators) (uid : string) (now : Z) (roomCode : string)
| DoSubmitAnswer (uid : string) (now : Z) (roomCode : string)
    (questionIndex : IndexValue) (answer : AnswerValue) (timeTaken : Z).

(** The store a handler leaves when it runs to its end undisturbed. *)
Definition perform (a : Action) (st : Store) : Store :=
  match a with
  | DoCreateRoom uid draw now category quizCount maxPlayers playerName isPublic =>
      (createRoom uid draw now category quizCount maxPlayers playerName isPublic st).1
  | DoQuickMatch uid draw now playerName => (quickMatch uid draw now playerName st).1
  | DoJoinRoom uid code playerName => (joinRoom uid code playerName st).1.1
  | DoPlayerReady w uid now roomCode isReady =>
      (playerReady (answer_dbSample w) (answer_apiGet w) (answer_shuffleArray w)
         uid now roomCode isReady st).1.1
  | DoStartGame w uid now roomCode =>
      (startGameRequest (answer_dbSample w) (answer_apiGet w) (answer_shuffleArray w)
         uid now roomCode st).1.1
  | DoSubmitAnswer uid now roomCode questionIndex answer timeTaken =>
      (submitAnswer uid now roomCode questionIndex answer timeTaken st).1.1
  end.

Definition performAll (actions : list Action) (st : Store) : Store :=
  foldl (λ st a, perform a st) st actions.

(** One player answering question [k], then [k + 1], and so on, each by
    its number; an input is the clock, the answer and the time taken of one
    submission. *)
Fixpoint answerInTurn (uid roomCode : string) (k : Z)
    (inputs : list (Z * AnswerValue * Z)) (st : Store) : Store :=
  match inputs with
  | [] => st
  | (now, answer, timeTaken) :: inputs' =>
      answerInTurn uid roomCode (k + 1) inputs'
        (submitAnswer uid now roomCode (number k) answer timeTaken st).1.1
  end.

(** What a submission carries besides its sender, room and time. *)
Definition payloadOf (a : Action) : option (IndexValue * AnswerValue) :=
  match a with
  | DoSubmitAnswer _ _ _ questionIndex answer _ => Some (questionIndex, answer)
  | _ => None
  end.

(** * Vocabulary of the properties *)

(** [Number.MAX_SAFE_INTEGER], 2^53 - 1: up to this magnitude every integer
    is a double, so that sums, differences and products of integers are
    exact when the operands and the result are safe, and so is
    [Math.floor(n / 1000)] for a safe [n]. *)
Definition maxSafeInteger : Z := 9007199254740991.

Definition safeInteger (n : Z) : Prop := - maxSafeInteger ≤ n ≤ maxSafeInteger.

Global Instance safeInteger_dec n : Decision (safeInteger n).
Proof. unfold safeInteger. apply _. Defined.

(** A number without fractional part. *)
Definition whole (q : Qc) : Prop := ∃ n : Z, q = Qc_of_Z n.

(** The player's score entry: the first one under the user id. *)
Definition playerEntry (uid : string) (game : Game.t) : option Score.t :=
  snd <$> list_find (λ s, Score.playerId s = uid) (Game.scores game).

(** The entry holds an answer for the question index. *)
Definition hasAnswer (questionIndex : Z) (s : Score.t) : Prop :=
  Exists (λ a, Answer.questionIndex a = questionIndex) (Score.answers s).

Global Instance hasAnswer_dec questionIndex s : Decision (hasAnswer questionIndex s).
Proof. unfold hasAnswer. apply _. Defined.

(** The entry holds an answer that the handler finds to be for the
    payload's [questionIndex]: an answer for that index when it is a number,
    none when it is a string. *)
Definition seen (questionIndex : IndexValue) (s : Score.t) : Prop :=
  match questionIndex with
  | number n => hasAnswer n s
  | numeral _ => False
  end.

Global Instance seen_dec questionIndex s : Decision (seen questionIndex s).
Proof. destruct questionIndex; apply _. Defined.

(** How many answers for the question index the entry holds. *)
Definition answerCount (questionIndex : Z) (s : Score.t) : nat :=
  length (filter (λ a, Answer.questionIndex a = questionIndex) (Score.answers s)).

(** The four situations in which the handler returns before recording. *)
Inductive Ignored (uid roomCode : string) (questionIndex : IndexValue) (st : Store) : Prop :=
| ignored_no_game :
    findGame roomCode st = None → Ignored uid roomCode questionIndex st
| ignored_ended gi game :
    findGame roomCode st = Some (gi, game) → is_Some (Game.endedAt game) →
    Ignored uid roomCode questionIndex st
| ignored_no_entry gi game :
    findGame roomCode st = Some (gi, game) → playerEntry uid game = None →
    Ignored uid roomCode questionIndex st
| ignored_answered gi game entry :
    findGame roomCode st = Some (gi, game) → playerEntry uid game = Some entry →
    seen questionIndex entry → Ignored uid roomCode questionIndex st.

(** The submission passes every guard of the handler: the game read at
    position [gi] is running, [entry] at position [si] is the submitter's
    score entry, the handler finds no answer for the index in it, and the
    question exists. *)
Record Accepted (uid roomCode : string) (questionIndex : IndexValue) (st : Store)
    (gi : nat) (game : Game.t) (si : nat) (entry : Score.t)
    (question : GameQuestion.t) : Prop := {
  acc_game : findGame roomCode st = Some (gi, game);
  acc_running : Game.endedAt game = None;
  acc_entry :
    list_find (λ s, Score.playerId s = uid) (Game.scores game) = Some (si, entry);
  acc_fresh : ¬ seen questionIndex entry;
  acc_question : index (Game.questions game) (numberOf questionIndex) = Some question
}.

(** The game document the store holds under [roomCode], and in it the
    submitter's score. *)
Definition gameOf (roomCode : string) (st : Store) : option Game.t :=
  snd <$> findGame roomCode st.

Definition scoreOf (uid roomCode : string) (st : Store) : option Z :=
  game ← gameOf roomCode st; Score.score <$> playerEntry uid game.

(** Scores never increase along the list. *)
Definition sortedDesc (l : list Score.t) : Prop :=
  StronglySorted (λ a b, Score.score b ≤ Score.score a) l.

(** Every score entry holds exactly one answer for the index. *)
Definition barrierMet (questionIndex : Z) (game : Game.t) : Prop :=
  Forall (λ s, answerCount questionIndex s = 1%nat) (Game.scores game).

(** No score entry holds two answers for the index. *)
Definition answersUnique (questionIndex : Z) (game : Game.t) : Prop :=
  Forall (λ s, (answerCount questionIndex s ≤ 1)%nat) (Game.scores game).

(** The room holds no more players than [maxPlayers]. *)
Definition withinCapacity (r : Room.t) : Prop :=
  (Qc_of_Z (Z.of_nat (length (Room.players r))) ≤ Room.maxPlayers r)%Qc.

Global Instance withinCapacity_dec r : Decision (withinCapacity r).
Proof. unfold withinCapacity. apply _. Defined.

(** The status of the room found under the code. *)
Definition statusOf (roomCode : string) (st : Store) : option RoomStatus :=
  Room.status ∘ snd <$> findRoom roomCode st.

(** [startGame] gave up: the room is told, the store is as before. *)
Definition startFailed (room : Room.t) (st : Store) (result : Store * list Emit) : Prop :=
  result = (st, [(Room.code room, gameError "Failed to start game")]).

(** [startGame] created a game of [n] questions at question 0, moved the
    room at [ri] to in-progress and announced the game. *)
Definition startedWith (n : Z) (ri : nat) (room : Room.t) (st : Store)
    (result : Store * list Emit) : Prop :=
  ∃ game,
    result.1 = saveRoom ri (Room.set_status in_progress room) (insertGame game st)
    ∧ Game.roomCode game = Room.code room
    ∧ Game.currentQuestion game = 0
    ∧ Z.of_nat (length (Game.questions game)) = n
    ∧ result.2 = [(Room.code room,
                   gameStarted 0 (index (Game.questions game) 0)
                     (Z.of_nat (length (Game.questions game))))].

(** The room a request has read and not yet written back. *)
Definition holds (r : Request) : option nat :=
  match r with
  | Looked _ _ _ _ (Some (i, _)) => Some i
  | _ => None
  end.

(** Every game of the store holds, per score entry, at most one answer for
    each question index. *)
Definition oneAnswerEach (st : Store) : Prop :=
  ∀ questionIndex, Forall (answersUnique questionIndex) (games st).

(** ** What one handler may do to the store *)

(** The players of a room across a handler: the same players in the same
    order, their [ready] flags apart, and behind them the players pushed,
    unready and with score 0. *)
Definition playersStep (ps ps' : list Player.t) : Prop :=
  ∃ front extra,
    ps' = front ++ extra
    ∧ Forall2 (λ p p', Player.id p' = Player.id p ∧ Player.name p' = Player.name p
                       ∧ Player.score p' = Player.score p) ps front
    ∧ Forall (λ p, Player.ready p = false ∧ Player.score p = 0) extra.

(** A room across a handler: its configuration is fixed, its players change
    as above, and its status does not return to waiting. *)
Definition roomStep (r r' : Room.t) : Prop :=
  Room.code r' = Room.code r ∧ Room.host r' = Room.host r
  ∧ Room.category r' = Room.category r ∧ Room.quizCount r' = Room.quizCount r
  ∧ Room.maxPlayers r' = Room.maxPlayers r ∧ Room.isPublic r' = Room.isPublic r
  ∧ Room.createdAt r' = Room.createdAt r
  ∧ playersStep (Room.players r) (Room.players r')
  ∧ (Room.status r' = waiting → Room.status r = waiting).

(** A room as the creating routes make it. *)
Definition freshRoom (r : Room.t) : Prop :=
  (∃ playerName, Room.players r = [newPlayer (Room.host r) playerName])
  ∧ Room.status r = waiting.

(** A game as [startGame] makes it for the room. *)
Definition freshGame (r : Room.t) (g : Game.t) : Prop :=
  Game.roomCode g = Room.code r
  ∧ Game.currentQuestion g = 0
  ∧ Game.endedAt g = None
  ∧ Game.scores g = toScore <$> Room.players r
  ∧ Forall (λ q, GameQuestion.timeLimit q = 15000) (Game.questions g).

(** The score entry after answer [a] is recorded in it. *)
Definition recordAnswer (a : Answer.t) (entry : Score.t) : Score.t :=
  Score.mk (Score.playerId entry) (Score.playerName entry)
    (Score.score entry + scoreDelta (Answer.isCorrect a) (Answer.timeTaken a))
    (Score.answers entry ++ [a]).

(** The answer a payload leaves in the score entry, for the question it
    names. *)
Definition answerOf (questionIndex : IndexValue) (answer : AnswerValue) (timeTaken : Z)
    (question : GameQuestion.t) : Answer.t :=
  Answer.mk (numberOf questionIndex) (stringOf answer)
    (bool_decide (text (GameQuestion.correctAnswer question) = answer)) timeTaken.

(** The handler finds an answer for the payload's index in every score
    entry. *)
Definition allAnswered (questionIndex : IndexValue) (g : Game.t) : Prop :=
  Forall (seen questionIndex) (Game.scores g).

(** A game across an accepted submission: the answer is recorded in the
    first entry under a player id of a running game, for an existing
    question, the handler having found no answer for the index in that
    entry; after which the game stays where it is, moves to the next
    question or ends. *)
Inductive gameStep (questionIndex : IndexValue) (answer : AnswerValue)
    (g g' : Game.t) : Prop :=
| game_answered si entry question timeTaken :
    Game.endedAt g = None →
    list_find (λ s, Score.playerId s = Score.playerId entry) (Game.scores g)
    = Some (si, entry) →
    ¬ seen questionIndex entry →
    index (Game.questions g) (numberOf questionIndex) = Some question →
    Game.roomCode g' = Game.roomCode g →
    Game.questions g' = Game.questions g →
    Game.startedAt g' = Game.startedAt g →
    Game.scores g'
    = <[si:=recordAnswer (answerOf questionIndex answer timeTaken question) entry]>
        (Game.scores g) →
    (Game.currentQuestion g' = Game.currentQuestion g ∧ Game.endedAt g' = None
     ∧ ¬ allAnswered questionIndex g')
    ∨ (Game.currentQuestion g' = Game.currentQuestion g + 1
       ∧ Game.currentQuestion g' < Z.of_nat (length (Game.questions g))
       ∧ Game.endedAt g' = None
       ∧ allAnswered questionIndex g')
    ∨ (Game.currentQuestion g' = Game.currentQuestion g
       ∧ is_Some (Game.endedAt g')
       ∧ Z.of_nat (length (Game.questions g)) - 1 ≤ Game.currentQuestion g
       ∧ allAnswered questionIndex g') →
    gameStep questionIndex answer g g'.

(** The store across a handler; [payload] is what the handler was sent if
    it is a submission. *)
Inductive storeStep (payload : option (IndexValue * AnswerValue)) (st st' : Store) : Prop :=
| step_none : st' = st → storeStep payload st st'
| step_room_added r :
    freshRoom r → st' = mkStore (rooms st ++ [r]) (games st) → storeStep payload st st'
| step_room_changed ri r r' :
    rooms st !! ri = Some r → roomStep r r' → Room.status r' = Room.status r →
    st' = mkStore (<[ri:=r']> (rooms st)) (games st) → storeStep payload st st'
| step_started ri r r' g :
    rooms st !! ri = Some r → roomStep r r' → Room.status r' = in_progress →
    freshGame r' g →
    st' = mkStore (<[ri:=r']> (rooms st)) (games st ++ [g]) → storeStep payload st st'
| step_answered questionIndex answer gi g g' rs' :
    payload = Some (questionIndex, answer) →
    games st !! gi = Some g → gameStep questionIndex answer g g' →
    rs' = rooms st
    ∨ (is_Some (Game.endedAt g')
       ∧ ∃ ri r, rooms st !! ri = Some r ∧ Room.code r = Game.roomCode g
                 ∧ rs' = <[ri:=Room.set_status completed r]> (rooms st)) →
    st' = mkStore rs' (<[gi:=g']> (games st)) → storeStep payload st st'.

(** Rooms are never removed; what stands for a room later has its code and
    is waiting only if the room was. *)
Definition roomsGrow (rs rs' : list Room.t) : Prop :=
  ∀ r, r ∈ rs → ∃ r', r' ∈ rs' ∧ Room.code r' = Room.code r
                      ∧ (Room.status r' = waiting → Room.status r = waiting).

(** ** What holds of every store the handlers build *)

(** The sum of the increments of the recorded answers. *)
Definition totalDelta (answers : list Answer.t) : Z :=
  foldr (λ a acc, scoreDelta (Answer.isCorrect a) (Answer.timeTaken a) + acc) 0 answers.

(** The answer is for an existing question, and it is recorded as correct
    only if its text is that question's [correctAnswer]. *)
Definition answerValid (questions : list GameQuestion.t) (a : Answer.t) : Prop :=
  ∃ q, index questions (Answer.questionIndex a) = Some q
       ∧ (Answer.isCorrect a = true → Answer.answer a = GameQuestion.correctAnswer q).

(** The answer is for an existing question and its stored correctness is
    that of its text against the question. *)
Definition answerExact (questions : list GameQuestion.t) (a : Answer.t) : Prop :=
  ∃ q, index questions (Answer.questionIndex a) = Some q
       ∧ Answer.isCorrect a
         = bool_decide (GameQuestion.correctAnswer q = Answer.answer a).

(** The entry at position [j] stands behind an earlier entry of the same
    player id. *)
Definition shadowed (scores : list Score.t) (j : nat) : Prop :=
  ∃ i e e', (i < j)%nat ∧ scores !! i = Some e ∧ scores !! j = Some e'
            ∧ Score.playerId e = Score.playerId e'.

Record gameOk (g : Game.t) : Prop := {
  ok_score : Forall (λ e, Score.score e = totalDelta (Score.answers e)) (Game.scores g);
  ok_valid : Forall (λ e, Forall (answerValid (Game.questions g)) (Score.answers e))
               (Game.scores g);
  ok_current : 0 ≤ Game.currentQuestion g
               ∧ (Game.currentQuestion g = 0
                  ∨ Game.currentQuestion g < Z.of_nat (length (Game.questions g)));
  ok_shadowed : ∀ j e, Game.scores g !! j = Some e → shadowed (Game.scores g) j →
                Score.answers e = [];
  ok_stuck : (∃ j, shadowed (Game.scores g) j) →
             Game.currentQuestion g = 0 ∧ Game.endedAt g = None
}.

Record roomOk (r : Room.t) : Prop := {
  ok_host : ∃ p ps, Room.players r = p :: ps ∧ Player.id p = Room.host r;
  ok_zero : Forall (λ p, Player.score p = 0) (Room.players r)
}.

Record storeOk (st : Store) : Prop := {
  ok_rooms : Forall roomOk (rooms st);
  ok_games : Forall gameOk (games st);
  ok_owner : Forall (λ g, ∃ r, r ∈ rooms st ∧ Room.code r = Game.roomCode g
                               ∧ Room.status r ≠ waiting) (games st)
}.

(** ** What holds when the payloads are of the expected type *)

(** A request that, if it is a submission, carries its [questionIndex] as a
    number; its [answer] as a string; a safe integer as [timeTaken]. *)
Definition numericIndex (a : Action) : Prop :=
  match payloadOf a with
  | Some (numeral _, _) => False
  | _ => True
  end.

Definition textAnswer (a : Action) : Prop :=
  match payloadOf a with
  | Some (_, literal _) => False
  | _ => True
  end.

Definition safeTime (a : Action) : Prop :=
  match a with
  | DoSubmitAnswer _ _ _ _ _ timeTaken => safeInteger timeTaken
  | _ => True
  end.

Global Instance numericIndex_dec a : Decision (numericIndex a).
Proof. unfold numericIndex. destruct (payloadOf a) as [[[] ?]|]; apply _. Defined.
Global Instance textAnswer_dec a : Decision (textAnswer a).
Proof. unfold textAnswer. destruct (payloadOf a) as [[? []]|]; apply _. Defined.
Global Instance safeTime_dec a : Decision (safeTime a).
Proof. destruct a; apply _. Defined.

(** No score entry of the game holds two answers for one question index. *)
Definition uniqueAnswers (g : Game.t) : Prop :=
  Forall (λ e, NoDup (Answer.questionIndex <$> Score.answers e)) (Game.scores g).

(** Every recorded answer of the game is for an existing question and
    recorded as correct exactly if its text is the [correctAnswer]. *)
Definition exactAnswers (g : Game.t) : Prop :=
  Forall (λ e, Forall (answerExact (Game.questions g)) (Score.answers e)) (Game.scores g).

(** * A session to run the handlers on *)

Module Scenario.

Definition capital : Question.t :=
  Question.mk "Geography" "easy" "Capital of France?" "Paris"
    ["Rome"; "Madrid"; "Berlin"] "opentdb".
Definition planet : Question.t :=
  Question.mk "Geography" "easy" "Third planet?" "Earth"
    ["Mars"; "Venus"; "Pluto"] "opentdb".
Definition metal : Question.t :=
  Question.mk "Geography" "easy" "Symbol Fe?" "Iron"
    ["Gold"; "Lead"; "Zinc"] "opentdb".

(** A question collection that holds three documents of the category. *)
Definition localDb (category : string) (count : Z) : option (list Question.t) :=
  if decide (0 ≤ count) then Some (take (Z.to_nat count) [capital; planet; metal])
  else None.

(** The OpenTDB request fails. *)
Definition noApi (amount : Z) (category : CategoryId) : option (list ApiQuestion.t) :=
  None.

(** A shuffle that turns the array around. *)
Definition backwards (options : list string) : list string := reverse options.

(** A question collection that holds a single document, and an OpenTDB
    answer of a single result. *)
Definition smallDb (category : string) (count : Z) : option (list Question.t) :=
  if decide (1 ≤ count) then Some [capital] else None.

Definition smallApi (amount : Z) (category : CategoryId) : option (list ApiQuestion.t) :=
  Some [ApiQuestion.mk "Science" "easy" "H2O?" "Water" ["Salt"; "Sand"; "Air"]].

Definition empty : Store := mkStore [] [].

(** Ann creates a one-player room of three questions ... *)
Definition lobby : Store :=
  (createRoom "ann" 1234 0 "Geography" 3 (Qc_of_Z 1) "Ann" false empty).1.

(** ... and readies, which starts the game ... *)
Definition started : Store :=
  (playerReady localDb noApi backwards "ann" 1 "1234" true lobby).1.1.

Definition startedEntry : Score.t := Score.mk "ann" "Ann" 0 [].

Definition startedQuestion : GameQuestion.t :=
  GameQuestion.mk "Capital of France?" ["Paris"; "Rome"; "Madrid"; "Berlin"] "Paris" 15000.

Definition startedGame : Game.t :=
  Game.mk "1234"
    [startedQuestion;
     GameQuestion.mk "Third planet?" ["Earth"; "Mars"; "Venus"; "Pluto"] "Earth" 15000;
     GameQuestion.mk "Symbol Fe?" ["Iron"; "Gold"; "Lead"; "Zinc"] "Iron" 15000]
    0 [startedEntry] 1 None.

(** ... and answers question 0. *)
Definition answeredOnce : Store :=
  (submitAnswer "ann" 2 "1234" (number 0) (text "Paris") 500 started).1.1.

(** The room document of [lobby], and the same room asking for five
    questions. *)
Definition room3 : Room.t :=
  Room.mk "1234" "ann" "Geography" 3 (Qc_of_Z 1) [newPlayer "ann" "Ann"] false waiting 0.

Definition room5 : Room.t :=
  Room.mk "1234" "ann" "Geography" 5 (Qc_of_Z 1) [newPlayer "ann" "Ann"] false waiting 0.

Definition lobby5 : Store :=
  (createRoom "ann" 1234 0 "Geography" 5 (Qc_of_Z 1) "Ann" false empty).1.

(** Ann creates a room for two, joins it herself, starts the game and
    answers question 0. *)
Definition doubled : list Action :=
  [DoCreateRoom "ann" 1234 0 "Geography" 3 (Qc_of_Z 2) "Ann" false;
   DoJoinRoom "ann" "1234" "Ann";
   DoStartGame (mkCollaborators localDb noApi backwards) "ann" 1 "1234";
   DoSubmitAnswer "ann" 2 "1234" (number 0) (text "Paris") 500].

End Scenario.

Ltac by_compute := apply (bool_decide_unpack _); vm_compute; exact I.

(** * Properties *)

(** ** Lookups in an updated collection *)

Section ListFind.
Context {A : Type} (P : A → Prop) `{!∀ x, Decision (P x)}.

(** Overwriting the found element by one that still matches keeps it the
    first match. *)
Lemma list_find_insert_same (l : list A) i x y :
  list_find P l = Some (i, x) → P y →
  list_find P (<[i:=y]> l) = Some (i, y).
Proof.
  intros (Hi & _ & Hleast)%list_find_Some Hy.
  apply list_find_Some. split_and!.
  - apply list_lookup_insert_eq. by eapply lookup_lt_Some.
  - done.
  - intros j z Hj Hlt. rewrite list_lookup_insert_ne in Hj by lia. eauto.
Qed.

Lemma list_find_lookup (l : list A) i x :
  list_find P l = Some (i, x) → l !! i = Some x.
Proof. by intros (? & _)%list_find_Some. Qed.

Lemma list_find_holds (l : list A) i x :
  list_find P l = Some (i, x) → P x.
Proof. by intros (_ & ? & _)%list_find_Some. Qed.

End ListFind.

Lemma rooms_saveGame i g st : rooms (saveGame i g st) = rooms st.
Proof. done. Qed.
Lemma games_saveGame i g st : games (saveGame i g st) = <[i:=g]> (games st).
Proof. done. Qed.
Lemma games_saveRoom i r st : games (saveRoom i r st) = games st.
Proof. done. Qed.
Lemma rooms_saveRoom i r st : rooms (saveRoom i r st) = <[i:=r]> (rooms st).
Proof. done. Qed.

Lemma alter_lookup_insert {A} (f : A → A) (l : list A) i x :
  l !! i = Some x → alter f i l = <[i:=f x]> l.
Proof.
  intros Hi. rewrite list_insert_alter.
  apply list_alter_ext; [|done]. intros y Hy. congruence.
Qed.

(** Pushing a player to the document a handler has just read is writing
    back the document with the player appended. *)
Lemma pushPlayer_saveRoom i room player st :
  rooms st !! i = Some room →
  pushPlayer i player st
  = saveRoom i (Room.set_players (Room.players room ++ [player]) room) st.
Proof.
  intros Hi. unfold pushPlayer, saveRoom. f_equal.
  by rewrite (alter_lookup_insert _ _ i room).
Qed.

Lemma saveGame_saveGame i g g' st : saveGame i g' (saveGame i g st) = saveGame i g' st.
Proof. unfold saveGame, set_games. simpl. by rewrite list_insert_insert_eq. Qed.

Lemma findGame_saveRoom roomCode i r st :
  findGame roomCode (saveRoom i r st) = findGame roomCode st.
Proof. done. Qed.

Lemma findGame_saveGame roomCode gi g g' st :
  findGame roomCode st = Some (gi, g) → Game.roomCode g' = roomCode →
  findGame roomCode (saveGame gi g' st) = Some (gi, g').
Proof.
  unfold findGame. intros Hf Hc. rewrite games_saveGame.
  by apply (list_find_insert_same (λ g, Game.roomCode g = roomCode)) with g.
Qed.

Lemma findRoom_saveGame roomCode i g st :
  findRoom roomCode (saveGame i g st) = findRoom roomCode st.
Proof. done. Qed.

Lemma findRoom_saveRoom roomCode ri r r' st :
  findRoom roomCode st = Some (ri, r) → Room.code r' = roomCode →
  findRoom roomCode (saveRoom ri r' st) = Some (ri, r').
Proof.
  unfold findRoom. intros Hf Hc. rewrite rooms_saveRoom.
  by apply (list_find_insert_same (λ r, Room.code r = roomCode)) with r.
Qed.

(** ** Who has answered what *)

Lemma hasAnswer_alt questionIndex (s : Score.t) :
  hasAnswer questionIndex s
  ↔ ∃ a, a ∈ Score.answers s ∧ Answer.questionIndex a = questionIndex.
Proof. apply Exists_exists. Qed.

(** What [===] finds: the stored index when the payload holds that number,
    nothing when it holds a string. *)
Lemma seen_alt questionIndex (s : Score.t) :
  seen questionIndex s
  ↔ ∃ a, a ∈ Score.answers s ∧ number (Answer.questionIndex a) = questionIndex.
Proof.
  destruct questionIndex as [n|n]; simpl.
  - rewrite hasAnswer_alt. split; intros (a & ? & ?); exists a; split; congruence.
  - split; [done|]. by intros (a & _ & ?).
Qed.

Lemma find_answer_None questionIndex (s : Score.t) :
  list_find (λ a, number (Answer.questionIndex a) = questionIndex) (Score.answers s) = None
  ↔ ¬ seen questionIndex s.
Proof.
  rewrite list_find_None, Forall_forall, seen_alt. split.
  - intros H (a & Ha & Hq). by apply (H a).
  - intros H a Ha Hq. apply H. by exists a.
Qed.

Lemma answered_seen questionIndex (s : Score.t) :
  answered questionIndex s = true ↔ seen questionIndex s.
Proof.
  rewrite seen_alt. unfold answered.
  induction (Score.answers s) as [|a l IH]; simpl.
  - split; [done|]. intros (a & Ha & _). by apply elem_of_nil in Ha.
  - rewrite orb_true_iff, IH, bool_decide_eq_true. split.
    + intros [?|(b & ? & ?)]; [exists a|exists b]; split; auto; by constructor.
    + intros (b & [->|?]%elem_of_cons & ?); [by left|right; eauto].
Qed.

Lemma answerCount_pos questionIndex (s : Score.t) :
  hasAnswer questionIndex s ↔ (0 < answerCount questionIndex s)%nat.
Proof.
  rewrite hasAnswer_alt. unfold answerCount. split.
  - intros (a & Ha & Hq).
    assert (a ∈ filter (λ a, Answer.questionIndex a = questionIndex) (Score.answers s)) as Hin
      by by apply list_elem_of_filter.
    destruct (filter _ _); [by apply elem_of_nil in Hin|simpl; lia].
  - destruct (filter _ _) as [|a l] eqn:E; simpl; [lia|]. intros _.
    assert (a ∈ filter (λ a, Answer.questionIndex a = questionIndex) (Score.answers s)) as Hin
      by (rewrite E; by constructor).
    apply list_elem_of_filter in Hin as [Hq Hin]. by exists a.
Qed.

Lemma answerCount_zero questionIndex (s : Score.t) :
  ¬ hasAnswer questionIndex s ↔ answerCount questionIndex s = 0%nat.
Proof. rewrite answerCount_pos. lia. Qed.

Lemma answerCount_push questionIndex pid pname sc answers answer isCorrect timeTaken :
  answerCount questionIndex
    (Score.mk pid pname sc (answers ++ [Answer.mk questionIndex answer isCorrect timeTaken]))
  = S (answerCount questionIndex (Score.mk pid pname sc answers)).
Proof.
  unfold answerCount. simpl. rewrite filter_app, length_app. simpl.
  rewrite filter_cons_True by done. simpl. lia.
Qed.

Lemma forallb_answered questionIndex (game : Game.t) :
  answersUnique questionIndex game →
  forallb (answered (number questionIndex)) (Game.scores game) = true
  ↔ barrierMet questionIndex game.
Proof.
  unfold answersUnique, barrierMet.
  induction 1 as [|s l Hs Hl IH]; simpl.
  - split; [constructor|done].
  - rewrite andb_true_iff, IH, answered_seen. simpl.
    rewrite answerCount_pos, Forall_cons.
    split; intros [? ?]; split; auto; lia.
Qed.

(** ** Ignored and accepted submissions *)

(** The guards: an ignored submission returns at once. *)
Lemma ignored_returns uid now roomCode questionIndex answer timeTaken st :
  Ignored uid roomCode questionIndex st →
  submitAnswer uid now roomCode questionIndex answer timeTaken st = (st, [], Returned).
Proof.
  intros [Hg|gi game Hg [d Hd]|gi game Hg He|gi game entry Hg He Ha];
    unfold submitAnswer; unfold playerEntry in *; rewrite Hg.
  - done.
  - by rewrite Hd.
  - destruct (Game.endedAt game); [done|].
    by destruct (list_find _ (Game.scores game)) as [[si ps]|].
  - destruct (Game.endedAt game); [done|].
    destruct (list_find _ (Game.scores game)) as [[si ps]|]; [|done].
    simpl in He. injection He as ->.
    destruct (list_find _ (Score.answers entry)) eqn:Hf; [done|].
    by apply find_answer_None in Hf.
Qed.

Lemma answerOf_fold questionIndex answer timeTaken (question : GameQuestion.t)
    (entry : Score.t) :
  Score.mk (Score.playerId entry) (Score.playerName entry)
    (Score.score entry
     + scoreDelta (bool_decide (text (GameQuestion.correctAnswer question) = answer))
         timeTaken)
    (Score.answers entry
       ++ [Answer.mk (numberOf questionIndex) (stringOf answer)
             (bool_decide (text (GameQuestion.correctAnswer question) = answer)) timeTaken])
  = recordAnswer (answerOf questionIndex answer timeTaken question) entry.
Proof. done. Qed.

Lemma submitAnswer_accepted uid now roomCode questionIndex answer timeTaken st
    gi game si entry question :
  Accepted uid roomCode questionIndex st gi game si entry question →
  submitAnswer uid now roomCode questionIndex answer timeTaken st
  = acceptAnswer uid now roomCode questionIndex answer timeTaken gi game si entry question st.
Proof.
  intros [Hg Hr He Hf Hq]. unfold submitAnswer.
  rewrite Hg, Hr, He, Hq. by apply find_answer_None in Hf as ->.
Qed.

(** What an accepted submission leaves in the store: the game still sits at
    [gi]; its questions, room code and score membership are as before; only
    the submitter's entry, [currentQuestion] and [endedAt] may differ. *)
Lemma acceptAnswer_game uid now roomCode questionIndex answer timeTaken st
    gi game si entry question :
  Accepted uid roomCode questionIndex st gi game si entry question →
  let entry' := recordAnswer (answerOf questionIndex answer timeTaken question) entry in
  ∃ game',
    findGame roomCode
      (acceptAnswer uid now roomCode questionIndex answer timeTaken
         gi game si entry question st).1.1 = Some (gi, game')
    ∧ Game.scores game' = <[si:=entry']> (Game.scores game)
    ∧ Game.questions game' = Game.questions game
    ∧ Game.roomCode game' = roomCode
    ∧ games (acceptAnswer uid now roomCode questionIndex answer timeTaken
               gi game si entry question st).1.1 = <[gi:=game']> (games st).
Proof.
  intros [Hg Hr He Hf Hq] entry'.
  assert (Game.roomCode game = roomCode) as Hc
    by apply (list_find_holds _ _ _ _ Hg).
  unfold acceptAnswer. rewrite answerOf_fold. fold entry'.
  set (game1 := Game.set_scores _ game).
  destruct (forallb _ _); [destruct (decide _)|]; simpl.
  - rewrite saveGame_saveGame. eexists.
    split_and!; [by apply findGame_saveGame with game|done..|].
    apply list_insert_insert_eq.
  - rewrite saveGame_saveGame.
    exists (Game.set_endedAt now game1).
    destruct (findRoom _ _) as [[ri room]|]; rewrite ?findGame_saveRoom;
      (split_and!; [by apply findGame_saveGame with game|done..]).
  - exists game1. split; [by apply findGame_saveGame with game|done].
Qed.

Lemma playerEntry_insert uid (game game' : Game.t) si entry entry' :
  list_find (λ s, Score.playerId s = uid) (Game.scores game) = Some (si, entry) →
  Score.playerId entry' = Score.playerId entry →
  Game.scores game' = <[si:=entry']> (Game.scores game) →
  playerEntry uid game' = Some entry'.
Proof.
  intros He Hid Hs. unfold playerEntry. rewrite Hs.
  rewrite (list_find_insert_same (λ s, Score.playerId s = uid) _ si entry entry'); [done..|].
  rewrite Hid. apply (list_find_holds _ _ _ _ He).
Qed.

(** Either the handler leaves the store alone, whatever the answer, or the
    submission is accepted. *)
Lemma submitAnswer_cases uid roomCode questionIndex st :
  (∀ now answer timeTaken, ∃ outcome,
     submitAnswer uid now roomCode questionIndex answer timeTaken st = (st, [], outcome))
  ∨ (∃ gi game si entry question,
       Accepted uid roomCode questionIndex st gi game si entry question).
Proof.
  destruct (findGame roomCode st) as [[gi game]|] eqn:Hg;
    [|left; intros; unfold submitAnswer; rewrite Hg; by eexists].
  destruct (Game.endedAt game) as [d|] eqn:Hd;
    [left; intros; unfold submitAnswer; rewrite Hg, Hd; by eexists|].
  destruct (list_find (λ s, Score.playerId s = uid) (Game.scores game))
    as [[si entry]|] eqn:He;
    [|left; intros; unfold submitAnswer; rewrite Hg, Hd, He; by eexists].
  destruct (list_find (λ a, number (Answer.questionIndex a) = questionIndex)
              (Score.answers entry))
    as [[ai a]|] eqn:Ha;
    [left; intros; unfold submitAnswer; rewrite Hg, Hd, He, Ha; by eexists|].
  destruct (index (Game.questions game) (numberOf questionIndex)) as [question|] eqn:Hq;
    [|left; intros; unfold submitAnswer; rewrite Hg, Hd, He, Ha, Hq; by eexists].
  right. exists gi, game, si, entry, question.
  split; [done..| |done]. by apply find_answer_None.
Qed.

Example started_game : findGame "1234" Scenario.started = Some (0%nat, Scenario.startedGame).
Proof. vm_compute. reflexivity. Qed.

Lemma started_accepts questionIndex question :
  index (Game.questions Scenario.startedGame) (numberOf questionIndex) = Some question →
  Accepted "ann" "1234" questionIndex Scenario.started
    0 Scenario.startedGame 0 Scenario.startedEntry question.
Proof.
  intros Hq. split; [vm_compute; reflexivity|reflexivity|reflexivity| |done].
  intros (a & Ha & _)%seen_alt. by apply elem_of_nil in Ha.
Defined.

(** The handlers keep the answers of an entry unique per question index as
    long as the index is sent as a number: a new game has no answers, and a
    submission is recorded only for an index the entry holds no answer
    for. *)
Lemma startGame_oneAnswerEach dbSample apiGet shuffleArray now ri room st :
  oneAnswerEach st →
  oneAnswerEach (startGame dbSample apiGet shuffleArray now ri room st).1.
Proof.
  intros Hst k. unfold startGame. destruct (fetchQuestions _ _ _ _ _); [|by apply Hst].
  simpl. apply Forall_app. split; [by apply Hst|].
  constructor; [|constructor]. unfold answersUnique. simpl.
  apply Forall_fmap, Forall_forall. intros p _. unfold answerCount. simpl. lia.
Qed.

Lemma submitAnswer_oneAnswerEach uid now roomCode (questionIndex : Z) answer timeTaken st :
  oneAnswerEach st →
  oneAnswerEach (submitAnswer uid now roomCode (number questionIndex) answer timeTaken st).1.1.
Proof.
  intros Hst.
  destruct (submitAnswer_cases uid roomCode (number questionIndex) st)
    as [Hsame|(gi & game & si & entry & question & Hacc)].
  - destruct (Hsame now answer timeTaken) as [o ->]. done.
  - rewrite (submitAnswer_accepted _ _ _ _ _ _ _ _ _ _ _ _ Hacc).
    destruct (acceptAnswer_game uid now roomCode (number questionIndex) answer timeTaken st
                gi game si entry question Hacc) as (game' & _ & Hs' & _ & _ & Hgames).
    destruct Hacc as [Hg _ He Hf _]. simpl in Hf. intros k. rewrite Hgames.
    apply Forall_insert; [by apply Hst|].
    assert (answersUnique k game) as Hk.
    { apply list_find_lookup in Hg. by eapply (Forall_lookup_1 _ _ _ _ (Hst k)). }
    unfold answersUnique in *. rewrite Hs'. apply Forall_insert; [done|].
    apply list_find_lookup in He.
    pose proof (Forall_lookup_1 _ _ _ _ Hk He) as Hentry.
    unfold answerCount in *. simpl. rewrite filter_app, length_app. simpl.
    destruct (decide (questionIndex = k)) as [->|Hne].
    + apply answerCount_zero in Hf. unfold answerCount in Hf.
      rewrite Hf, filter_cons_True by done. simpl. lia.
    + rewrite filter_cons_False by done. simpl. lia.
Qed.

(** ** C1: ignored submissions, repeated submissions *)

(** X28. A submission for a game that does not exist or has ended, from a
    user without a score entry, or for an index for which the handler finds
    an answer in the sender's entry, returns without an error, emits nothing
    and leaves the whole store as it was.  Hence submitting is idempotent
    per (player, questionIndex) as long as the index is sent as a number:
    whatever a first submission did, a second one for the same number, with
    any answer, leaves the store as the first left it. *)
Theorem submitAnswer_idempotent uid now roomCode (questionIndex : Z) answer timeTaken st :
  (∀ index, Ignored uid roomCode index st →
     submitAnswer uid now roomCode index answer timeTaken st = (st, [], Returned))
  ∧ (∀ now' answer' timeTaken',
       let st' :=
         (submitAnswer uid now roomCode (number questionIndex) answer timeTaken st).1.1 in
       (submitAnswer uid now' roomCode (number questionIndex) answer' timeTaken' st').1.1 = st'
       ∧ (submitAnswer uid now' roomCode (number questionIndex) answer' timeTaken' st').1.2
         = []).
Proof.
  split; [intros index; apply ignored_returns|]. intros now' answer' timeTaken' st'.
  destruct (submitAnswer_cases uid roomCode (number questionIndex) st)
    as [Hsame|(gi & game & si & entry & question & Hacc)].
  - destruct (Hsame now answer timeTaken) as [o Ho].
    destruct (Hsame now' answer' timeTaken') as [o' Ho'].
    subst st'. rewrite Ho. simpl. by rewrite Ho'.
  - assert (Ignored uid roomCode (number questionIndex) st') as Hign.
    { subst st'. rewrite (submitAnswer_accepted _ _ _ _ _ _ _ _ _ _ _ _ Hacc).
      destruct (acceptAnswer_game uid now roomCode (number questionIndex) answer timeTaken st
                  gi game si entry question Hacc) as (game' & Hg' & Hs' & _).
      eapply ignored_answered; [exact Hg'| |].
      - eapply playerEntry_insert; [apply Hacc| |exact Hs']. reflexivity.
      - apply hasAnswer_alt. simpl. eexists. split.
        + apply elem_of_app. right. apply list_elem_of_here.
        + done. }
    by rewrite (ignored_returns _ now' _ _ answer' timeTaken' _ Hign).
Qed.

Lemma submitAnswer_idempotent_witness :
  Ignored "ann" "1234" (number 0) Scenario.answeredOnce
  ∧ submitAnswer "ann" 3 "1234" (number 0) (text "Rome") 100 Scenario.answeredOnce
    = (Scenario.answeredOnce, [], Returned).
Proof.
  assert (Ignored "ann" "1234" (number 0) Scenario.answeredOnce) as H.
  { eapply ignored_answered; [vm_compute; reflexivity..|by_compute]. }
  split; [exact H|].
  exact (proj1 (submitAnswer_idempotent "ann" 3 "1234" 0 (text "Rome") 100
                  Scenario.answeredOnce) _ H).
Defined.

(** C1, on the input where it fails.  The payload is not validated.  A
    [questionIndex] sent as the string "0" reads question 0 and is stored,
    cast by the schema, as the number 0; but the guard that is to find an
    earlier answer compares the stored numbers with the string by [===] and
    finds none.  Ann's answer to question 0 of the started game, sent with
    the index as a string, is recorded and scored; sent again, it is
    recorded and scored again, and [answerReceived] is emitted again.  Sent
    with the index as a number, the repeated submission is ignored. *)
Theorem submitAnswer_repeats :
  let submit index := submitAnswer "ann" 2 "1234" index (text "Paris") 500 in
  let once := (submit (numeral 0) Scenario.started).1.1 in
  let twice := (submit (numeral 0) once).1.1 in
  (∃ game entry,
     gameOf "1234" once = Some game ∧ playerEntry "ann" game = Some entry
     ∧ Answer.questionIndex <$> Score.answers entry = [0]
     ∧ Score.score entry = 200)
  ∧ (submit (numeral 0) once).1.2 = [("1234", answerReceived "ann" (numeral 0) true)]
  ∧ (∃ game entry,
       gameOf "1234" twice = Some game ∧ playerEntry "ann" game = Some entry
       ∧ Answer.questionIndex <$> Score.answers entry = [0; 0]
       ∧ Score.score entry = 400)
  ∧ submit (number 0) once = (once, [], Returned).
Proof.
  split_and!.
  - eexists _, _. split_and!; [vm_compute; reflexivity..].
  - vm_compute. reflexivity.
  - eexists _, _. split_and!; [vm_compute; reflexivity..].
  - vm_compute. reflexivity.
Qed.




(** ** Sorting *)

Lemma sort_insert_Permutation {A} (cmp : A → A → Z) x (l : list A) :
  sort_insert cmp x l ≡ₚ x :: l.
Proof.
  induction l as [|y l IH]; simpl; [done|].
  destruct (decide _); [done|]. rewrite IH. apply Permutation_swap.
Qed.

Lemma sort_Permutation {A} (cmp : A → A → Z) (l : list A) : sort cmp l ≡ₚ l.
Proof.
  induction l as [|x l IH]; simpl; [done|].
  unfold sort in *. simpl. by rewrite sort_insert_Permutation, IH.
Qed.

Lemma sort_insert_sortedDesc x l :
  sortedDesc l → sortedDesc (sort_insert byScoreDesc x l).
Proof.
  unfold sortedDesc. induction 1 as [|y l Hl IH Hy]; simpl.
  - repeat constructor.
  - unfold byScoreDesc at 1. destruct (decide _) as [Hle|Hgt].
    + constructor; [by constructor|].
      constructor; [lia|]. eapply Forall_impl; [exact Hy|]. simpl. intros; lia.
    + constructor; [done|].
      rewrite sort_insert_Permutation. constructor; [lia|done].
Qed.

Lemma sort_sortedDesc l : sortedDesc (sort byScoreDesc l).
Proof.
  induction l as [|x l IH]; [constructor|].
  unfold sort in *. simpl. by apply sort_insert_sortedDesc.
Qed.

(** ** C2: the barrier *)

(** C2 (amended). The barrier is evaluated on the submitted index, which
    the handler never compares with [currentQuestion].  For an accepted
    submission for index q, in a game whose entries hold at most one answer
    for q: [currentQuestion] goes up by exactly 1 if and only if, once the
    answer is recorded, every score entry holds exactly one answer for q and
    [currentQuestion] was below the last index, and is unchanged otherwise;
    the game ends if and only if every entry holds an answer for q and
    [currentQuestion] is not below the last index, and then [endedAt] is
    set, the room found under the code becomes completed and [gameEnded]
    carries the scores sorted by descending score. *)
Theorem submitAnswer_barrier uid now roomCode (questionIndex : Z) answer timeTaken st
    gi game si entry question :
  Accepted uid roomCode (number questionIndex) st gi game si entry question →
  answersUnique questionIndex game →
  let result := submitAnswer uid now roomCode (number questionIndex) answer timeTaken st in
  let c := Game.currentQuestion game in
  let final := Z.of_nat (length (Game.questions game)) - 1 in
  ∃ game',
    gameOf roomCode result.1.1 = Some game'
    ∧ (Game.currentQuestion game' = c + 1 ↔ barrierMet questionIndex game' ∧ c < final)
    ∧ (Game.currentQuestion game' = c ↔ ¬ (barrierMet questionIndex game' ∧ c < final))
    ∧ (is_Some (Game.endedAt game') ↔ barrierMet questionIndex game' ∧ final ≤ c)
    ∧ (barrierMet questionIndex game' → final ≤ c →
         Game.endedAt game' = Some now
         ∧ (∀ ri room, findRoom roomCode st = Some (ri, room) →
              findRoom roomCode result.1.1 = Some (ri, Room.set_status completed room))
         ∧ ∃ ranking,
             last result.1.2 = Some (roomCode, gameEnded ranking)
             ∧ ranking ≡ₚ Game.scores game'
             ∧ sortedDesc ranking).
Proof.
  intros Hacc Huniq result c final. subst result.
  rewrite (submitAnswer_accepted _ _ _ _ _ _ _ _ _ _ _ _ Hacc).
  destruct Hacc as [Hg Hr He Hf Hq]. simpl in Hf, Hq.
  assert (Game.roomCode game = roomCode) as Hc by apply (list_find_holds _ _ _ _ Hg).
  unfold acceptAnswer. cbn [numberOf].
  set (isCorrect := bool_decide _).
  set (entry' := Score.mk _ _ _ _).
  set (game1 := Game.set_scores _ game).
  assert (answersUnique questionIndex game1) as Huniq1.
  { unfold answersUnique, game1. simpl. apply Forall_insert; [done|].
    unfold entry'. rewrite answerCount_push.
    apply answerCount_zero in Hf. unfold answerCount in *. simpl. by rewrite Hf. }
  pose proof (forallb_answered questionIndex game1 Huniq1) as Hb.
  destruct (forallb _ _) eqn:Hall.
  - assert (barrierMet questionIndex game1) as Hmet by by apply Hb.
    subst c final. destruct (decide _) as [Hlt|Hge]; simpl in *.
    + exists (Game.set_currentQuestion (Game.currentQuestion game + 1) game1). simpl.
      rewrite saveGame_saveGame. split_and!.
      * unfold gameOf. by erewrite findGame_saveGame.
      * done.
      * split; [lia|]. intros []. done.
      * rewrite Hr. split; [by intros [? ?]|lia].
      * lia.
    + exists (Game.set_endedAt now game1). simpl.
      rewrite saveGame_saveGame. split_and!.
      * unfold gameOf.
        destruct (findRoom _ _) as [[ri room]|]; rewrite ?findGame_saveRoom;
          by erewrite findGame_saveGame.
      * split; [lia|]. intros [_ ?]. done.
      * split; [|done]. intros _ [_ ?]. done.
      * split; [|by eexists]. intros _. split; [done|lia].
      * intros _ _. split_and!; [done| |].
        -- intros ri room Hroom. rewrite findRoom_saveGame, Hroom.
           apply findRoom_saveRoom with room.
           ++ by rewrite findRoom_saveGame.
           ++ apply (list_find_holds _ _ _ _ Hroom).
        -- eexists. split_and!; [done|apply sort_Permutation|apply sort_sortedDesc].
  - assert (¬ barrierMet questionIndex game1) as Hmet.
    { intros ?%Hb. congruence. }
    exists game1. simpl. split_and!.
    + unfold gameOf. by erewrite findGame_saveGame.
    + split; [lia|]. by intros [? _].
    + split; [|done]. by intros _ [? _].
    + rewrite Hr. split; [by intros [? ?]|]. by intros [? _].
    + done.
Qed.

Lemma submitAnswer_barrier_witness :
  ∃ game',
    gameOf "1234" Scenario.answeredOnce = Some game'
    ∧ Game.currentQuestion game' = 1
    ∧ barrierMet 0 game'.
Proof.
  destruct (submitAnswer_barrier "ann" 2 "1234" 0 (text "Paris") 500 Scenario.started
              0 Scenario.startedGame 0 Scenario.startedEntry Scenario.startedQuestion
              (started_accepts (number 0) _ eq_refl))
    as (game' & Hg & Hadv & _).
  { repeat constructor. }
  exists game'. split; [exact Hg|].
  assert (gameOf "1234" Scenario.answeredOnce
          = Some (Game.mk "1234" (Game.questions Scenario.startedGame) 1
                    [Score.mk "ann" "Ann" 200 [Answer.mk 0 "Paris" true 500]] 1 None)) as Hv
    by (vm_compute; reflexivity).
  unfold Scenario.answeredOnce in Hv. rewrite Hv in Hg. injection Hg as <-.
  split; [reflexivity|]. by repeat constructor.
Defined.

(** C2 as stated fails: in the started three-question game, whose current
    question is 0, an answer for index 2 moves [currentQuestion] to 1
    although no score entry holds an answer for question 0. *)
Lemma barrier_counterexample :
  ∃ game game',
    gameOf "1234" Scenario.started = Some game
    ∧ gameOf "1234"
        (submitAnswer "ann" 2 "1234" (number 2) (text "Iron") 500 Scenario.started).1.1
      = Some game'
    ∧ Game.currentQuestion game = 0
    ∧ Game.currentQuestion game' = 0 + 1
    ∧ ¬ barrierMet 0 game'.
Proof.
  eexists _, _. split_and!; [vm_compute; reflexivity..|].
  intros H. apply Forall_cons in H as [H _]. vm_compute in H. discriminate.
Qed.

(** ** C3: the score of an accepted answer *)

(** C3. An accepted correct answer (the payload's answer is the string
    that is the question's [correctAnswer]) raises the submitter's score by
    exactly 100 + 10 * max(0, 10 - floor(timeTaken / 1000)): by 200 at
    500 ms and by 100 at 11000 ms; the bonus is never negative; an accepted
    incorrect answer leaves the score as it was.  The time taken, the score
    and the raised score are safe integers, on which the quotient and the
    sum that the handler computes on doubles are exact. *)
Theorem submitAnswer_score uid now roomCode questionIndex answer timeTaken st
    gi game si entry question :
  Accepted uid roomCode questionIndex st gi game si entry question →
  safeInteger timeTaken →
  safeInteger (Score.score entry) →
  let st' := (submitAnswer uid now roomCode questionIndex answer timeTaken st).1.1 in
  let old := Score.score entry in
  scoreOf uid roomCode st = Some old
  ∧ (answer = text (GameQuestion.correctAnswer question) →
     safeInteger (old + (100 + 10 * Z.max 0 (10 - timeTaken / 1000))) →
       scoreOf uid roomCode st'
       = Some (old + (100 + 10 * Z.max 0 (10 - timeTaken / 1000)))
       ∧ (timeTaken = 500 → scoreOf uid roomCode st' = Some (old + 200))
       ∧ (timeTaken = 11000 → scoreOf uid roomCode st' = Some (old + 100)))
  ∧ (answer ≠ text (GameQuestion.correctAnswer question) →
       scoreOf uid roomCode st' = Some old)
  ∧ 0 ≤ timeBonus timeTaken.
Proof.
  intros Hacc _ _ st' old.
  assert (∀ d, scoreDelta (bool_decide (text (GameQuestion.correctAnswer question) = answer))
                 timeTaken = d → scoreOf uid roomCode st' = Some (old + d)) as Hnew.
  { intros d Hd. subst st'. rewrite (submitAnswer_accepted _ _ _ _ _ _ _ _ _ _ _ _ Hacc).
    destruct (acceptAnswer_game uid now roomCode questionIndex answer timeTaken st
                gi game si entry question Hacc) as (game' & Hg' & Hs' & _).
    unfold scoreOf, gameOf. rewrite Hg'. simpl.
    erewrite playerEntry_insert; [|apply Hacc| |apply Hs']; [|done].
    simpl. by rewrite Hd. }
  split_and!.
  - unfold scoreOf, gameOf, playerEntry.
    destruct Hacc as [Hg _ He _ _]. by rewrite Hg; simpl; rewrite He.
  - intros Hc _.
    assert (scoreOf uid roomCode st'
            = Some (old + (100 + 10 * Z.max 0 (10 - timeTaken / 1000)))) as Hs.
    { apply Hnew. rewrite bool_decide_eq_true_2 by done.
      unfold scoreDelta, timeBonus. lia. }
    split_and!; [done|intros ->; by rewrite Hs..].
  - intros Hc. rewrite (Hnew 0); [f_equal; lia|].
    by rewrite bool_decide_eq_false_2.
  - unfold timeBonus. lia.
Qed.

Lemma submitAnswer_score_witness :
  scoreOf "ann" "1234"
    (submitAnswer "ann" 2 "1234" (number 0) (text "Paris") 500 Scenario.started).1.1
  = Some 200.
Proof.
  pose proof (submitAnswer_score "ann" 2 "1234" (number 0) (text "Paris") 500
                Scenario.started
                0 Scenario.startedGame 0 Scenario.startedEntry Scenario.startedQuestion
                (started_accepts (number 0) _ eq_refl)
                ltac:(by_compute) ltac:(by_compute)) as (_ & H & _).
  destruct (H eq_refl ltac:(by_compute)) as (_ & H500 & _). exact (H500 eq_refl).
Defined.

(** ** C4: capacity *)

Lemma capacity_push (n : nat) (maxPlayers : Qc) :
  whole maxPlayers →
  ¬ (maxPlayers ≤ Qc_of_Z (Z.of_nat n))%Qc →
  (Qc_of_Z (Z.of_nat (n + 1)) ≤ maxPlayers)%Qc.
Proof. intros [z ->]. rewrite <- !Z2Qc_inj_le. lia. Qed.

(** X13. Joining by code keeps every room within its capacity when the
    capacity of the room found under the code is a whole number, and a join
    of a full room answers 400 "Room is full" and changes nothing. *)
Lemma joinRoom_capacity uid code playerName st :
  Forall withinCapacity (rooms st) →
  (∀ i room, findRoom code st = Some (i, room) → whole (Room.maxPlayers room)) →
  Forall withinCapacity (rooms (joinRoom uid code playerName st).1.1)
  ∧ (∀ i room, findRoom code st = Some (i, room) →
       (Room.maxPlayers room ≤ Qc_of_Z (Z.of_nat (length (Room.players room))))%Qc →
       joinRoom uid code playerName st = (st, [], json_error 400 "Room is full")).
Proof.
  intros Hcap Hwhole. unfold joinRoom. split.
  - destruct (findRoom code st) as [[i room]|] eqn:Hf; [|done].
    destruct (decide _) as [|Hfree]; [done|]. destruct (decide _); [done|]. cbn [fst].
    rewrite (pushPlayer_saveRoom i room) by by eapply list_find_lookup.
    apply Forall_insert; [done|].
    unfold withinCapacity. simpl. rewrite length_app. simpl.
    apply capacity_push; [by eapply Hwhole|done].
  - intros i room -> Hfull. by rewrite decide_True.
Qed.

(** The capacity is stored as it is sent, and a capacity that is not a
    whole number lets the join route exceed it: a room for two and a half
    players that holds two, and is within its capacity, is not full for the
    route and gets a third player. *)
Example joinRoom_fractional_capacity :
  let room :=
    Room.mk "1234" "ann" "Science" 5 (Q2Qc (5 # 2))
      [newPlayer "ann" "Ann"; newPlayer "bob" "Bob"] false waiting 0 in
  let result := joinRoom "cat" "1234" "Cat" (mkStore [room] []) in
  withinCapacity room
  ∧ Player.id <$> (rooms result.1.1 ≫= Room.players) = ["ann"; "bob"; "cat"]
  ∧ ¬ Forall withinCapacity (rooms result.1.1).
Proof. split_and!; [by_compute|vm_compute; reflexivity|by_compute]. Qed.

(** C4, on the input where it fails.  Ann creates a public room of category
    Random for one player; the room is within its capacity.  Bob's
    quick-match request finds that room and is appended to it without any
    test against [maxPlayers]: the request succeeds and the room then holds
    two players for a capacity of one. *)
Theorem quickMatch_exceeds_capacity :
  let st :=
    (createRoom "ann" 1234 0 "Random" 5 (Qc_of_Z 1) "Ann" true Scenario.empty).1 in
  let result := quickMatch "bob" 5678 1 "Bob" st in
  Forall withinCapacity (rooms st)
  ∧ ∃ room,
      result.2 = json_room room
      ∧ rooms result.1 = [room]
      ∧ Room.players room = [newPlayer "ann" "Ann"; newPlayer "bob" "Bob"]
      ∧ Room.maxPlayers room = Qc_of_Z 1
      ∧ ¬ withinCapacity room.
Proof.
  split; [by_compute|]. eexists. split_and!; [vm_compute; reflexivity..|].
  by_compute.
Qed.

(** ** C5: room status *)

(** The socket event [startGame] does nothing unless the room waits. *)
Lemma startGameRequest_guard dbSample apiGet shuffleArray uid now roomCode st ri room :
  findRoom roomCode st = Some (ri, room) → Room.status room ≠ waiting →
  startGameRequest dbSample apiGet shuffleArray uid now roomCode st = (st, [], Returned).
Proof.
  intros Hr Hs. unfold startGameRequest. rewrite Hr.
  rewrite decide_False; [done|]. by intros [_ ?].
Qed.

(** C5, on the input where it fails.  The auto-start of [playerReady] calls
    [startGame] without the test on [room.status] that the [startGame]
    event makes.  In the one-player session, a [playerReady] sent while the
    game runs creates a second game; sent after the game has ended, it
    creates another game and moves the room from completed back to
    in-progress. *)
Theorem playerReady_restarts :
  let ready := playerReady Scenario.localDb Scenario.noApi Scenario.backwards "ann" in
  let finished :=
    (submitAnswer "ann" 5 "1234" (number 2) (text "Iron") 700
       (submitAnswer "ann" 4 "1234" (number 1) (text "Mars") 900
          Scenario.answeredOnce).1.1).1.1 in
  statusOf "1234" Scenario.lobby = Some waiting
  ∧ statusOf "1234" Scenario.started = Some in_progress
  ∧ length (games Scenario.started) = 1%nat
  ∧ length (games (ready 2 "1234" true Scenario.started).1.1) = 2%nat
  ∧ statusOf "1234" finished = Some completed
  ∧ length (games finished) = 1%nat
  ∧ statusOf "1234" (ready 6 "1234" true finished).1.1 = Some in_progress
  ∧ length (games (ready 6 "1234" true finished).1.1) = 2%nat.
Proof. vm_compute. by split_and!. Qed.

(** ** C6, C7, C10: questions, where they come from and what is sent *)

Lemma slice0_lookup {A} (n : Z) (l : list A) i x :
  slice0 n l !! i = Some x → l !! i = Some x.
Proof. unfold slice0. destruct (decide _); by intros [? _]%lookup_take_Some. Qed.

Lemma slice0_length {A} (n : Z) (l : list A) :
  0 ≤ n → Z.of_nat (length (slice0 n l)) = Z.min n (Z.of_nat (length l)).
Proof. intros Hn. unfold slice0. rewrite decide_True by done. rewrite length_take. lia. Qed.

Section Questions.

Variable dbSample : string → Z → option (list Question.t).
Variable apiGet : Z → CategoryId → option (list ApiQuestion.t).
Variable shuffleArray : list string → list string.

(** C10. Every question that [fetchQuestions] takes from the local store
    has the options [correctAnswer] ++ incorrectAnswers of its document,
    unshuffled, so the correct answer is its first option; the questions
    behind them come from the external API and are the only ones whose
    options pass through [shuffleArray]. *)
Theorem fetchQuestions_options category count docs questions i q :
  dbSample category count = Some docs →
  fetchQuestions dbSample apiGet shuffleArray category count = Some questions →
  questions !! i = Some q →
  ((i < length docs)%nat →
     ∃ d, docs !! i = Some d
          ∧ Fetched.options q = [Question.correctAnswer d] ++ Question.incorrectAnswers d
          ∧ Fetched.correctAnswer q = Question.correctAnswer d
          ∧ head (Fetched.options q) = Some (Fetched.correctAnswer q))
  ∧ ((length docs ≤ i)%nat →
     ∃ results a,
       apiGet count (getCategoryId category) = Some results
       ∧ results !! (i - length docs)%nat = Some a
       ∧ Fetched.options q
         = shuffleArray ((decodeHtmlEntities <$> ApiQuestion.incorrect_answers a)
                         ++ [decodeHtmlEntities (ApiQuestion.correct_answer a)])).
Proof.
  intros Hdb Hf Hq. unfold fetchQuestions in Hf. rewrite Hdb in Hf.
  assert (∀ l, ((project <$> docs) ++ l) !! i = Some q → (i < length docs)%nat →
            ∃ d, docs !! i = Some d ∧ q = project d) as Hlocal.
  { intros l Hl Hi. rewrite lookup_app_l in Hl by by rewrite length_fmap.
    rewrite list_lookup_fmap in Hl.
    destruct (docs !! i) as [d|]; [|done]. exists d. by injection Hl as <-. }
  assert (∀ l, ((project <$> docs) ++ l) !! i = Some q → (i < length docs)%nat →
            ∃ d, docs !! i = Some d
                 ∧ Fetched.options q = [Question.correctAnswer d] ++ Question.incorrectAnswers d
                 ∧ Fetched.correctAnswer q = Question.correctAnswer d
                 ∧ head (Fetched.options q) = Some (Fetched.correctAnswer q)) as Hlocal'.
  { intros l Hl Hi. destruct (Hlocal l Hl Hi) as (d & Hd & ->). by exists d. }
  destruct (decide _) as [Hlt|Hge].
  - destruct (apiGet _ _) as [results|] eqn:Hapi; [|done].
    injection Hf as <-. apply slice0_lookup in Hq. split; [by eapply Hlocal'|].
    intros Hi. rewrite lookup_app_r in Hq by by rewrite length_fmap.
    rewrite length_fmap, list_lookup_fmap in Hq.
    destruct (results !! _) as [a|] eqn:Ha; [|done].
    exists results, a. by injection Hq as <-.
  - injection Hf as <-. split.
    + apply (Hlocal' []). by rewrite app_nil_r.
    + intros Hi. apply lookup_lt_Some in Hq. rewrite length_fmap in Hq. lia.
Qed.

(** The [$sample] stage returns at most [size] documents. *)
Hypothesis sample_size : ∀ category count docs,
  dbSample category count = Some docs → Z.of_nat (length docs) ≤ count.

(** C7 (amended). [startGame] fails exactly when the local query or the
    external request throws; the room is then told with [gameError], no
    game is created and the room is not changed.  A short question supply
    is no failure: when the local store gives fewer than [quizCount]
    questions and the API answers, the game starts at question 0 with
    min(quizCount, local + API) questions, which is [quizCount] only if
    that many could be assembled. *)
Theorem startGame_outcome now ri room st :
  let category := Room.category room in
  let count := Room.quizCount room in
  let result := startGame dbSample apiGet shuffleArray now ri room st in
  match dbSample category count with
  | None => startFailed room st result
  | Some docs =>
      if decide (Z.of_nat (length docs) < count) then
        match apiGet count (getCategoryId category) with
        | None => startFailed room st result
        | Some results =>
            startedWith (Z.min count (Z.of_nat (length docs + length results)))
              ri room st result
        end
      else startedWith count ri room st result
  end.
Proof.
  intros category count result. subst result.
  unfold startGame, fetchQuestions. fold category count.
  destruct (dbSample category count) as [docs|] eqn:Hdb; [|done].
  pose proof (sample_size _ _ _ Hdb) as Hle.
  rewrite length_fmap. destruct (decide _) as [Hlt|Hge].
  - destruct (apiGet _ _) as [results|]; [|done].
    eexists. split_and!; [done..| |done]. simpl.
    rewrite length_fmap, slice0_length by lia.
    by rewrite length_app, !length_fmap.
  - eexists. split_and!; [done..| |done]. simpl. rewrite !length_fmap. lia.
Qed.

(** C6 (amended). The [gameStarted] broadcast carries index 0, the first
    question document of the new game as it is stored, [correctAnswer]
    included, and the question count.  An accepted submission first emits
    [answerReceived] with the player id, the question index and the
    correctness only; what may follow is [nextQuestion] with the new index
    and the stored question document, [correctAnswer] included and no
    question count, or [gameEnded]. *)
Theorem emits_stored_question now ri room st questions
    uid now' roomCode questionIndex answer timeTaken st2 gi game si entry question :
  fetchQuestions dbSample apiGet shuffleArray (Room.category room) (Room.quizCount room)
  = Some questions →
  Accepted uid roomCode questionIndex st2 gi game si entry question →
  (∃ game',
     games (startGame dbSample apiGet shuffleArray now ri room st).1 = games st ++ [game']
     ∧ Game.questions game' = toGameQuestion <$> questions
     ∧ (startGame dbSample apiGet shuffleArray now ri room st).2
       = [(Room.code room,
           gameStarted 0 (index (Game.questions game') 0)
             (Z.of_nat (length (Game.questions game'))))])
  ∧ ∃ rest,
      (submitAnswer uid now' roomCode questionIndex answer timeTaken st2).1.2
      = (roomCode,
         answerReceived uid questionIndex
           (bool_decide (text (GameQuestion.correctAnswer question) = answer))) :: rest
      ∧ (rest = []
         ∨ rest = [(roomCode,
                    nextQuestion (Game.currentQuestion game + 1)
                      (index (Game.questions game) (Game.currentQuestion game + 1)))]
         ∨ ∃ ranking, rest = [(roomCode, gameEnded ranking)]).
Proof.
  intros Hf Hacc. split.
  - unfold startGame. rewrite Hf. by eexists.
  - rewrite (submitAnswer_accepted _ _ _ _ _ _ _ _ _ _ _ _ Hacc).
    unfold acceptAnswer.
    destruct (forallb _ _); [destruct (decide _)|]; simpl; eexists; (split; [done|]).
    + right. by left.
    + right. right. by eexists.
    + by left.
Qed.

End Questions.

Lemma fetchQuestions_options_witness :
  ∃ d, [Scenario.capital] !! 0%nat = Some d
       ∧ Fetched.options (project Scenario.capital)
         = [Question.correctAnswer d] ++ Question.incorrectAnswers d
       ∧ Fetched.correctAnswer (project Scenario.capital) = Question.correctAnswer d
       ∧ head (Fetched.options (project Scenario.capital))
         = Some (Fetched.correctAnswer (project Scenario.capital)).
Proof.
  destruct (fetchQuestions_options Scenario.smallDb Scenario.smallApi Scenario.backwards
              "Geography" 5 [Scenario.capital]
              [project Scenario.capital;
               Fetched.mk "H2O?" "Water" ["Water"; "Air"; "Sand"; "Salt"] "Science" "easy"]
              0 (project Scenario.capital))
    as [H _]; [reflexivity|vm_compute; reflexivity|reflexivity|].
  apply H. simpl. lia.
Defined.

Lemma smallDb_sample_size category count docs :
  Scenario.smallDb category count = Some docs → Z.of_nat (length docs) ≤ count.
Proof.
  unfold Scenario.smallDb. destruct (decide _); [|done].
  intros [= <-]. simpl. lia.
Defined.

Lemma startGame_outcome_witness :
  startedWith 2 0 Scenario.room5 Scenario.lobby5
    (startGame Scenario.smallDb Scenario.smallApi Scenario.backwards
       1 0 Scenario.room5 Scenario.lobby5).
Proof.
  exact (startGame_outcome Scenario.smallDb Scenario.smallApi Scenario.backwards
           smallDb_sample_size 1 0 Scenario.room5 Scenario.lobby5).
Defined.

(** C7 as stated fails: the room asks for five questions, the local store
    holds one and the API returns one; [startGame] reports no error, creates
    a game of two questions and moves the room to in-progress. *)
Lemma startGame_short_supply :
  let result :=
    playerReady Scenario.smallDb Scenario.smallApi Scenario.backwards
      "ann" 1 "1234" true Scenario.lobby5 in
  (length <$> fetchQuestions Scenario.smallDb Scenario.smallApi Scenario.backwards
                "Geography" 5) = Some 2%nat
  ∧ statusOf "1234" Scenario.lobby5 = Some waiting
  ∧ statusOf "1234" result.1.1 = Some in_progress
  ∧ (length ∘ Game.questions <$> games result.1.1) = [2%nat]
  ∧ Forall (λ e, ∀ m, e.2 ≠ gameError m) result.1.2.
Proof.
  split_and!; [vm_compute; reflexivity..|].
  vm_compute. by repeat constructor.
Qed.

Lemma emits_stored_question_witness :
  ∃ rest,
    (submitAnswer "ann" 2 "1234" (number 0) (text "Paris") 500 Scenario.started).1.2
    = ("1234", answerReceived "ann" (number 0) true) :: rest.
Proof.
  destruct (emits_stored_question Scenario.localDb Scenario.noApi Scenario.backwards
              1 0 Scenario.room3 Scenario.lobby
              (project <$> [Scenario.capital; Scenario.planet; Scenario.metal])
              "ann" 2 "1234" (number 0) (text "Paris") 500 Scenario.started
              0 Scenario.startedGame 0 Scenario.startedEntry Scenario.startedQuestion)
    as [_ (rest & H & _)];
    [vm_compute; reflexivity|exact (started_accepts (number 0) _ eq_refl)|].
  exists rest. exact H.
Defined.

(** C6 as stated fails: the [gameStarted] and [nextQuestion] broadcasts of
    the one-player session carry the question documents with their
    [correctAnswer]. *)
Lemma broadcast_carries_correctAnswer :
  (∃ q n,
     ("1234", gameStarted 0 (Some q) n)
       ∈ (playerReady Scenario.localDb Scenario.noApi Scenario.backwards
            "ann" 1 "1234" true Scenario.lobby).1.2
     ∧ GameQuestion.correctAnswer q = "Paris")
  ∧ (∃ q,
       ("1234", nextQuestion 1 (Some q))
         ∈ (submitAnswer "ann" 2 "1234" (number 0) (text "Paris") 500 Scenario.started).1.2
       ∧ GameQuestion.correctAnswer q = "Earth").
Proof.
  split.
  - eexists _, _. split; [|shelve]. vm_compute. apply list_elem_of_further, list_elem_of_here.
    Unshelve. reflexivity.
  - eexists. split; [|shelve]. vm_compute. apply list_elem_of_further, list_elem_of_here.
    Unshelve. reflexivity.
Qed.

(** ** C8: handlers in flight *)

(** Resuming a handler twice in a row is the handler run in one piece. *)
Lemma resume_twice uid draw now playerName st :
  let '(r1, st1) := resume (Arrived uid draw now playerName) st in
  resume r1 st1
  = (Answered (quickMatch uid draw now playerName st).2,
     (quickMatch uid draw now playerName st).1).
Proof. simpl. unfold quickMatch. by destruct (quickMatch_save _ _ _ _ _ _). Qed.

(** C8 as stated fails.  Ann waits alone in a quick-match room for two.
    The requests of Bob and Cat are both resumed once before either is
    resumed again: both hold the document of Ann's room at the same time,
    and both are answered with room 1234 and themselves as its second
    player.  Both pushes reach the stored room, which then holds Ann, Bob
    and Cat. *)
Lemma quickMatch_race :
  let waitingRoom := (quickMatch "ann" 1234 0 "Ann" Scenario.empty).1 in
  let arrived := [Arrived "bob" 5678 1 "Bob"; Arrived "cat" 9012 2 "Cat"] in
  let midway := run [0; 1]%nat (arrived, waitingRoom) in
  let final := run [0; 1; 0; 1]%nat (arrived, waitingRoom) in
  holds <$> midway.1 = [Some 0%nat; Some 0%nat]
  ∧ ∃ roomB roomC,
      final.1 = [Answered (json_room roomB); Answered (json_room roomC)]
      ∧ Room.code roomB = "1234" ∧ Room.code roomC = "1234"
      ∧ Room.maxPlayers roomB = Qc_of_Z 2
      ∧ Player.id <$> Room.players roomB = ["ann"; "bob"]
      ∧ Player.id <$> Room.players roomC = ["ann"; "cat"]
      ∧ (fmap Player.id ∘ Room.players) <$> rooms final.2 = [["ann"; "bob"; "cat"]].
Proof. split; [vm_compute; reflexivity|]. eexists _, _. vm_compute. by split_and!. Qed.

(** C8 (amended). The source has no serialization layer: the lookup and the
    save of a handler are separate store operations and handlers interleave
    between them.  Only when the two quick-match handlers happen to run one
    after the other does exactly one requester become the second player of
    the single-player room both could find: the first is appended to it; the
    second is answered with a room at another position (found or newly
    created) and leaves the first room as the first request wrote it. *)
Theorem quickMatch_serial st i room uidA drawA nowA nameA uidB drawB nowB nameB :
  quickMatch_find st = Some (i, room) →
  length (Room.players room) = 1%nat →
  let final :=
    run [0; 0; 1; 1]%nat
      ([Arrived uidA drawA nowA nameA; Arrived uidB drawB nowB nameB], st) in
  let roomA := Room.set_players (Room.players room ++ [newPlayer uidA nameA]) room in
  ∃ j roomB,
    final.1 = [Answered (json_room roomA); Answered (json_room roomB)]
    ∧ final.2 = (quickMatch uidB drawB nowB nameB (quickMatch uidA drawA nowA nameA st).1).1
    ∧ rooms final.2 !! i = Some roomA
    ∧ Room.players roomA !! 1%nat = Some (newPlayer uidA nameA)
    ∧ j ≠ i
    ∧ rooms final.2 !! j = Some roomB
    ∧ last (Room.players roomB) = Some (newPlayer uidB nameB).
Proof.
  intros Hfind Hlen final roomA. subst final.
  assert (rooms st !! i = Some room) as Hi by by eapply list_find_lookup.
  assert (i < length (rooms st))%nat as Hilt by by eapply lookup_lt_Some.
  assert (Room.players roomA !! 1%nat = Some (newPlayer uidA nameA)) as HA.
  { unfold roomA. simpl. rewrite lookup_app_r by lia. by rewrite Hlen. }
  unfold run, resumeAt, resume, quickMatch. simpl. rewrite Hfind. simpl.
  rewrite (pushPlayer_saveRoom i room) by done. fold roomA.
  destruct (quickMatch_find (saveRoom i roomA st)) as [[j r]|] eqn:Hfind2; simpl.
  - rewrite (alter_lookup_insert _ _ j r) by by eapply list_find_lookup.
    assert (j ≠ i) as Hji.
    { intros ->. pose proof (list_find_lookup _ _ _ _ Hfind2) as Hl.
      pose proof (list_find_holds _ _ _ _ Hfind2) as (_ & _ & _ & Hp).
      rewrite rooms_saveRoom, list_lookup_insert_eq in Hl by done.
      injection Hl as <-. congruence. }
    assert (j < length (rooms st))%nat as Hjlt.
    { apply list_find_lookup, lookup_lt_Some in Hfind2.
      by rewrite rooms_saveRoom, length_insert in Hfind2. }
    eexists j, _. split_and!; [done..| |done|done| |].
    + rewrite list_lookup_insert_ne by done. by apply list_lookup_insert_eq.
    + apply list_lookup_insert_eq. by rewrite length_insert.
    + simpl. by rewrite last_snoc.
  - eexists (length (rooms st)), _. split_and!; [done..| |done|lia| |].
    + rewrite lookup_app_l by by rewrite length_insert.
      by apply list_lookup_insert_eq.
    + rewrite lookup_app_r by by rewrite length_insert.
      rewrite length_insert, Nat.sub_diag. done.
    + done.
Qed.

Lemma quickMatch_serial_witness :
  let final :=
    run [0; 0; 1; 1]%nat
      ([Arrived "bob" 5678 1 "Bob"; Arrived "cat" 9012 2 "Cat"],
       (quickMatch "ann" 1234 0 "Ann" Scenario.empty).1) in
  ∃ j roomB,
    j ≠ 0%nat
    ∧ rooms final.2 !! j = Some roomB
    ∧ last (Room.players roomB) = Some (newPlayer "cat" "Cat")
    ∧ (fmap Player.id ∘ Room.players) <$> rooms final.2 !! 0%nat = Some ["ann"; "bob"].
Proof.
  intros final.
  pose proof (quickMatch_serial (quickMatch "ann" 1234 0 "Ann" Scenario.empty).1 0
                (Room.mk "1234" "ann" "Random" 5 (Qc_of_Z 2) [newPlayer "ann" "Ann"] true
                   waiting 0)
                "bob" 5678 1 "Bob" "cat" 9012 2 "Cat") as H.
  cbv zeta in H. fold final in H.
  destruct H as (j & roomB & _ & _ & Hi & _ & Hj & HB & Hlast);
    [vm_compute; reflexivity|reflexivity|].
  exists j, roomB. split_and!; [done|exact HB|exact Hlast|].
  rewrite Hi. reflexivity.
Defined.

(** ** C9: room codes *)

Lemma NoDup_snoc {A} (l : list A) x : NoDup (l ++ [x]) ↔ (x ∉ l) ∧ NoDup l.
Proof.
  rewrite NoDup_app. split.
  - intros (? & Hx & _). split; [|done]. intros Hin. apply (Hx x Hin). by constructor.
  - intros [Hx ?]. split_and!; [done| |apply NoDup_singleton].
    intros y Hy ->%list_elem_of_singleton. done.
Qed.

(** C9 as stated fails: the code is one random draw, never compared with
    the store; two creations that draw the same number give two rooms with
    the same code. *)
Lemma createRoom_collision :
  let st1 := (createRoom "ann" 1234 0 "Science" 5 (Qc_of_Z 4) "Ann" true Scenario.empty).1 in
  let st2 := (createRoom "bob" 1234 1 "History" 5 (Qc_of_Z 4) "Bob" true st1).1 in
  Room.code <$> rooms st2 = ["1234"; "1234"] ∧ ¬ NoDup (Room.code <$> rooms st2).
Proof.
  split; [vm_compute; reflexivity|].
  intros H. vm_compute in H. apply NoDup_cons in H as [H _]. apply H. by constructor.
Qed.

(** C9 (amended). Room creation, by POST /api/rooms and by a quick-match
    request that finds no room, appends one room whose code is the decimal
    form of a single draw and touches nothing else; it neither reads the
    store nor retries.  The codes of the store stay pairwise distinct
    exactly when the drawn code differs from every existing one. *)
Theorem createRoom_code uid draw now category quizCount maxPlayers playerName isPublic st :
  NoDup (Room.code <$> rooms st) →
  (∃ room,
     createRoom uid draw now category quizCount maxPlayers playerName isPublic st
     = (mkStore (rooms st ++ [room]) (games st), json_room room)
     ∧ Room.code room = toString draw)
  ∧ (quickMatch_find st = None →
     ∃ room,
       quickMatch uid draw now playerName st
       = (mkStore (rooms st ++ [room]) (games st), json_room room)
       ∧ Room.code room = toString draw)
  ∧ (NoDup (Room.code <$>
            rooms (createRoom uid draw now category quizCount maxPlayers playerName isPublic st).1)
     ↔ toString draw ∉ Room.code <$> rooms st)
  ∧ (quickMatch_find st = None →
     (NoDup (Room.code <$> rooms (quickMatch uid draw now playerName st).1)
      ↔ toString draw ∉ Room.code <$> rooms st)).
Proof.
  intros Hnd. split_and!.
  - by eexists.
  - intros Hf. unfold quickMatch. rewrite Hf. by eexists.
  - unfold createRoom, insertRoom. cbn [fst rooms set_rooms].
    rewrite fmap_app. cbn [fmap list_fmap Room.code]. rewrite NoDup_snoc.
    split; [by intros []|done].
  - intros Hf. unfold quickMatch. rewrite Hf.
    unfold quickMatch_save, insertRoom. cbn [fst rooms set_rooms].
    rewrite fmap_app. cbn [fmap list_fmap Room.code]. rewrite NoDup_snoc.
    split; [by intros []|done].
Qed.

Lemma createRoom_code_witness :
  Room.code <$> rooms (createRoom "bob" 5678 1 "History" 5 (Qc_of_Z 4) "Bob" true Scenario.lobby).1
  = ["1234"; "5678"]
  ∧ NoDup (Room.code <$>
           rooms (createRoom "bob" 5678 1 "History" 5 (Qc_of_Z 4) "Bob" true Scenario.lobby).1).
Proof.
  split; [vm_compute; reflexivity|].
  assert (NoDup (Room.code <$> rooms Scenario.lobby)) as Hnd by by_compute.
  destruct (createRoom_code "bob" 5678 1 "History" 5 (Qc_of_Z 4) "Bob" true Scenario.lobby Hnd)
    as (_ & _ & H & _).
  apply H. by_compute.
Defined.

(** ** Every handler is a step of the store *)

Lemma players_kept (ps : list Player.t) :
  Forall2 (λ p p', Player.id p' = Player.id p ∧ Player.name p' = Player.name p
                   ∧ Player.score p' = Player.score p) ps ps.
Proof. induction ps; by constructor. Qed.

Lemma playersStep_refl ps : playersStep ps ps.
Proof.
  exists ps, []. split_and!; [by rewrite app_nil_r|apply players_kept|constructor].
Qed.

Lemma playersStep_push ps uid playerName :
  playersStep ps (ps ++ [newPlayer uid playerName]).
Proof.
  exists ps, [newPlayer uid playerName].
  split_and!; [done|apply players_kept|by repeat constructor].
Qed.

Lemma playersStep_ready ps i p b :
  ps !! i = Some p → playersStep ps (<[i:=Player.set_ready b p]> ps).
Proof.
  intros Hp. exists (<[i:=Player.set_ready b p]> ps), [].
  split_and!; [by rewrite app_nil_r| |constructor].
  rewrite <- (list_insert_id ps i p Hp) at 1.
  apply Forall2_insert; [apply players_kept|done].
Qed.

Lemma roomStep_players r ps :
  playersStep (Room.players r) ps → roomStep r (Room.set_players ps r).
Proof. intros. by split_and!. Qed.

Lemma roomStep_status r r' s :
  roomStep r r' → s ≠ waiting → roomStep r (Room.set_status s r').
Proof. intros (?&?&?&?&?&?&?&?&?) Hs. by split_and!. Qed.

Lemma roomStep_refl r : roomStep r r.
Proof. split_and!; try done. apply playersStep_refl. Qed.

Lemma forallb_allAnswered questionIndex (g : Game.t) :
  forallb (answered questionIndex) (Game.scores g) = true ↔ allAnswered questionIndex g.
Proof.
  unfold allAnswered. induction (Game.scores g) as [|s l IH]; simpl.
  - split; [constructor|done].
  - by rewrite andb_true_iff, IH, answered_seen, Forall_cons.
Qed.

(** [startGame] on the room read at [ri]: nothing changes, or the room goes
    in-progress and a game for it is appended. *)
Lemma startGame_step payload dbSample apiGet shuffleArray now ri room0 room st st0 :
  rooms st0 !! ri = Some room0 → roomStep room0 room →
  (st = st0 ∨ (Room.status room = Room.status room0
               ∧ st = mkStore (<[ri:=room]> (rooms st0)) (games st0))) →
  storeStep payload st0 (startGame dbSample apiGet shuffleArray now ri room st).1.
Proof.
  intros Hri Hstep Hst. unfold startGame.
  destruct (fetchQuestions _ _ _ _ _) as [questions|]; simpl.
  - eapply (step_started _ _ _ ri room0 (Room.set_status in_progress room)
              (Game.mk (Room.code room) (toGameQuestion <$> questions) 0
                 (toScore <$> Room.players room) now None));
      [done|by apply roomStep_status|done| |].
    + split_and!; try done. simpl. apply Forall_fmap, Forall_forall. by intros.
    + destruct Hst as [->|[_ ->]]; unfold saveRoom, insertGame, set_rooms, set_games;
        simpl; [done|]. by rewrite list_insert_insert_eq.
  - destruct Hst as [->|[Hs ->]]; [by apply step_none|].
    by eapply (step_room_changed _ _ _ ri room0 room).
Qed.

Lemma acceptAnswer_step uid now roomCode questionIndex answer timeTaken st
    gi game si entry question :
  Accepted uid roomCode questionIndex st gi game si entry question →
  storeStep (Some (questionIndex, answer)) st
    (acceptAnswer uid now roomCode questionIndex answer timeTaken
       gi game si entry question st).1.1.
Proof.
  intros [Hg Hr He Hf Hq].
  pose proof (list_find_lookup _ _ _ _ Hg) as Hgi.
  pose proof (list_find_holds _ _ _ _ Hg) as Hcode. simpl in Hcode.
  pose proof (list_find_holds _ _ _ _ He) as Hid. simpl in Hid. subst uid.
  unfold acceptAnswer. rewrite answerOf_fold.
  set (game1 := Game.set_scores _ game).
  pose proof (forallb_allAnswered questionIndex game1) as Hall.
  destruct (forallb _ _).
  - assert (allAnswered questionIndex game1) as Hmet by by apply Hall.
    destruct (decide _) as [Hlt|Hge]; simpl in *.
    + rewrite saveGame_saveGame.
      eapply (step_answered _ _ _ questionIndex answer gi game _ (rooms st));
        [done|done| |by left|done].
      eapply (game_answered _ _ _ _ si entry question timeTaken); [done..|].
      right. left. simpl. split_and!; [done|lia|done|done].
    + rewrite saveGame_saveGame.
      assert (gameStep questionIndex answer game (Game.set_endedAt now game1)) as Hstep.
      { eapply (game_answered _ _ _ _ si entry question timeTaken); [done..|].
        right. right. simpl. split_and!; [done|by eexists|lia|done]. }
      destruct (findRoom _ _) as [[ri room]|] eqn:Hroom.
      * eapply (step_answered _ _ _ questionIndex answer gi game
                  (Game.set_endedAt now game1)); [done|done|done| |done].
        right. split; [by eexists|]. exists ri, room. split_and!; [|..|done].
        -- by apply (list_find_lookup _ _ _ _ Hroom).
        -- pose proof (list_find_holds _ _ _ _ Hroom) as Hrc. simpl in Hrc. congruence.
      * by eapply (step_answered _ _ _ questionIndex answer gi game
                     (Game.set_endedAt now game1)); [done|done|done|left|done].
  - eapply (step_answered _ _ _ questionIndex answer gi game game1 (rooms st));
      [done|done| |by left|done].
    eapply (game_answered _ _ _ _ si entry question timeTaken); [done..|].
    left. split_and!; [done..|].
    intros Hmet%Hall. done.
Qed.

(** Whatever the request, the store after the handler is a step from the
    store before. *)
Lemma perform_step a st : storeStep (payloadOf a) st (perform a st).
Proof.
  destruct a as [uid draw now category quizCount maxPlayers playerName isPublic
                |uid draw now playerName|uid code playerName
                |w uid now roomCode isReady|w uid now roomCode
                |uid now roomCode questionIndex answer timeTaken]; simpl.
  - eapply step_room_added; [|done]. split; [by eexists|done].
  - unfold quickMatch, quickMatch_save.
    destruct (quickMatch_find st) as [[i room]|] eqn:Hf; cbn [fst].
    + rewrite (pushPlayer_saveRoom i room) by by eapply list_find_lookup.
      eapply (step_room_changed _ _ _ i room (Room.set_players _ room));
        [by eapply list_find_lookup| |done|done].
      apply roomStep_players, playersStep_push.
    + eapply step_room_added; [|done]. split; [by eexists|done].
  - unfold joinRoom. destruct (findRoom code st) as [[i room]|] eqn:Hf;
      [|by apply step_none].
    repeat destruct (decide _); try by apply step_none. cbn [fst].
    rewrite (pushPlayer_saveRoom i room) by by eapply list_find_lookup.
    eapply (step_room_changed _ _ _ i room (Room.set_players _ room));
      [by eapply list_find_lookup| |done|done].
    apply roomStep_players, playersStep_push.
  - unfold playerReady. destruct (findRoom roomCode st) as [[ri room]|] eqn:Hf;
      [|by apply step_none].
    destruct (list_find _ (Room.players room)) as [[pi player]|] eqn:Hp;
      [|by apply step_none].
    pose proof (list_find_lookup _ _ _ _ Hf) as Hri.
    pose proof (list_find_lookup _ _ _ _ Hp) as Hpi.
    set (room1 := Room.set_players _ room).
    assert (roomStep room room1) as Hstep
      by by apply roomStep_players, playersStep_ready.
    destruct (_ && _); [destruct (decide _)|].
    + pose proof (startGame_step None (answer_dbSample w) (answer_apiGet w)
                    (answer_shuffleArray w) now ri room room1
                    (saveRoom ri room1 st) st Hri Hstep) as Hs.
      destruct (startGame _ _ _ _ _ _ _). simpl in *. apply Hs. by right.
    + by eapply (step_room_changed _ _ _ ri room room1).
    + by eapply (step_room_changed _ _ _ ri room room1).
  - unfold startGameRequest. destruct (findRoom roomCode st) as [[ri room]|] eqn:Hf;
      [|by apply step_none].
    destruct (decide _); [|by apply step_none].
    pose proof (startGame_step None (answer_dbSample w) (answer_apiGet w)
                  (answer_shuffleArray w) now ri room room st st
                  (list_find_lookup _ _ _ _ Hf) (roomStep_refl room)) as Hs.
    destruct (startGame _ _ _ _ _ _ _). simpl in *. apply Hs. by left.
  - destruct (submitAnswer_cases uid roomCode questionIndex st)
      as [Hsame|(gi & game & si & entry & question & Hacc)].
    + destruct (Hsame now answer timeTaken) as [o ->]. by apply step_none.
    + rewrite (submitAnswer_accepted _ _ _ _ _ _ _ _ _ _ _ _ Hacc).
      by apply acceptAnswer_step.
Qed.

(** ** What every step keeps *)

Lemma roomOk_fresh r : freshRoom r → roomOk r.
Proof.
  intros [[playerName Hp] _]. split; rewrite Hp.
  - by eexists _, _.
  - by repeat constructor.
Qed.

Lemma scores_kept (ps front : list Player.t) :
  Forall2 (λ p p', Player.id p' = Player.id p ∧ Player.name p' = Player.name p
                   ∧ Player.score p' = Player.score p) ps front →
  Forall (λ p, Player.score p = 0) ps → Forall (λ p, Player.score p = 0) front.
Proof.
  induction 1 as [|x y l k (_ & _ & Hs) _ IH]; [constructor|].
  intros [? ?]%Forall_cons. constructor; [congruence|auto].
Qed.

Lemma roomOk_step r r' : roomOk r → roomStep r r' → roomOk r'.
Proof.
  intros [(p & ps & Hp & Hhost) Hzero]
         (_ & Hh & _ & _ & _ & _ & _ & (front & extra & Hps' & Hkept & Hextra) & _).
  rewrite Hp in Hkept, Hzero. split; rewrite Hps'.
  - apply Forall2_cons_inv_l in Hkept as (p' & front' & (Hid & _) & _ & ->).
    exists p', (front' ++ extra). split; [done|congruence].
  - apply Forall_app. split.
    + by eapply scores_kept.
    + eapply Forall_impl; [exact Hextra|]. by intros ? [_ ?].
Qed.

Lemma totalDelta_push answers a :
  totalDelta (answers ++ [a])
  = totalDelta answers + scoreDelta (Answer.isCorrect a) (Answer.timeTaken a).
Proof. unfold totalDelta. induction answers as [|b l IH]; simpl; lia. Qed.

Lemma hasAnswer_elem questionIndex (e : Score.t) :
  hasAnswer questionIndex e ↔ questionIndex ∈ Answer.questionIndex <$> Score.answers e.
Proof.
  rewrite hasAnswer_alt, list_elem_of_fmap. split.
  - intros (a & ? & ?). by exists a.
  - intros (a & ? & ?). by exists a.
Qed.

(** Being shadowed depends on the player ids only. *)
Lemma shadowed_ids (scores : list Score.t) j :
  shadowed scores j
  ↔ ∃ i pid, (i < j)%nat ∧ (Score.playerId <$> scores) !! i = Some pid
             ∧ (Score.playerId <$> scores) !! j = Some pid.
Proof.
  unfold shadowed. split.
  - intros (i & e & e' & ? & Hi & Hj & Heq). exists i, (Score.playerId e).
    rewrite !list_lookup_fmap, Hi, Hj. simpl. split_and!; [done..|by rewrite Heq].
  - intros (i & pid & ? & Hi & Hj). rewrite list_lookup_fmap in Hi, Hj.
    apply fmap_Some in Hi as (e & Hi & ->). apply fmap_Some in Hj as (e' & Hj & Heq).
    by exists i, e, e'.
Qed.

Lemma playerIds_insert (scores : list Score.t) si entry entry' :
  scores !! si = Some entry → Score.playerId entry' = Score.playerId entry →
  Score.playerId <$> <[si:=entry']> scores = Score.playerId <$> scores.
Proof.
  intros Hsi Hid. rewrite list_fmap_insert, Hid.
  apply list_insert_id. by rewrite list_lookup_fmap, Hsi.
Qed.

(** The entry [list_find] returns is not shadowed. *)
Lemma found_not_shadowed (scores : list Score.t) pid si entry :
  list_find (λ s, Score.playerId s = pid) scores = Some (si, entry) →
  ¬ shadowed scores si.
Proof.
  intros (Hsi & Hid & Hleast)%list_find_Some (i & e & e' & Hlt & Hi & Hj & Heq).
  apply (Hleast i e Hi Hlt). congruence.
Qed.

Lemma gameOk_fresh r g : freshGame r g → gameOk g.
Proof.
  intros (_ & Hc & He & Hs & _). split; rewrite ?Hs, ?Hc.
  - apply Forall_fmap, Forall_forall. by intros.
  - apply Forall_fmap, Forall_forall. intros. simpl. constructor.
  - split; [done|by left].
  - intros j e Hj _. rewrite list_lookup_fmap in Hj.
    destruct (Room.players r !! j); [|done]. by injection Hj as <-.
  - done.
Qed.

Lemma gameOk_step questionIndex answer g g' :
  gameOk g → gameStep questionIndex answer g g' → gameOk g'.
Proof.
  intros [Hscore Hvalid Hcur Hshadow Hstuck]
         [si entry question timeTaken Hrun Hfind Hfresh Hq _ Hqs _ Hs Hcase].
  pose proof (list_find_lookup _ _ _ _ Hfind) as Hsi.
  assert (∀ j, shadowed (Game.scores g') j ↔ shadowed (Game.scores g) j) as Hsame.
  { intros j. rewrite !shadowed_ids, Hs. by erewrite playerIds_insert. }
  assert (∀ j e, Game.scores g' !! j = Some e → shadowed (Game.scores g') j →
                 Score.answers e = []) as Hshadow'.
  { intros j e Hj Hsh%Hsame. destruct (decide (j = si)) as [->|Hne].
    - by apply found_not_shadowed in Hfind.
    - rewrite Hs, list_lookup_insert_ne in Hj by done. eauto. }
  split; rewrite ?Hs, ?Hqs.
  - apply Forall_insert; [done|]. simpl. rewrite totalDelta_push.
    by rewrite (Forall_lookup_1 _ _ _ _ Hscore Hsi).
  - apply Forall_insert; [done|]. simpl. apply Forall_app. split.
    + apply (Forall_lookup_1 _ _ _ _ Hvalid Hsi).
    + constructor; [|constructor]. exists question. split; [done|]. simpl.
      intros Hc%bool_decide_eq_true. by rewrite <- Hc.
  - destruct Hcase as [(-> & _)|[(-> & ? & _)|(-> & _)]]; [done|lia|done].
  - by rewrite <- Hs.
  - rewrite <- Hs. intros [j Hj]. pose proof Hj as Hj'. apply Hsame in Hj'.
    destruct (Hstuck (ex_intro _ j Hj')) as [Hc0 He0].
    assert (¬ allAnswered questionIndex g') as Hnot.
    { intros Hall. pose proof Hj as (i & e & e' & _ & _ & Hje & _).
      pose proof (Forall_lookup_1 _ _ _ _ Hall Hje) as (b & Hb & _)%seen_alt.
      rewrite (Hshadow' j e' Hje Hj) in Hb. by apply elem_of_nil in Hb. }
    destruct Hcase as [(-> & -> & _)|[(_ & _ & _ & ?)|(_ & _ & _ & ?)]]; done.
Qed.

Lemma roomsGrow_refl rs : roomsGrow rs rs.
Proof. intros r ?. by exists r. Qed.

Lemma roomsGrow_push rs r : roomsGrow rs (rs ++ [r]).
Proof. intros r0 ?. exists r0. split; [|done]. apply elem_of_app. by left. Qed.

Lemma roomsGrow_insert rs ri r r' :
  rs !! ri = Some r → Room.code r' = Room.code r →
  (Room.status r' = waiting → Room.status r = waiting) →
  roomsGrow rs (<[ri:=r']> rs).
Proof.
  intros Hri Hc Hs r0 [k Hk]%list_elem_of_lookup.
  destruct (decide (k = ri)) as [->|Hne].
  - assert (r0 = r) as -> by congruence. exists r'. split; [|done].
    apply list_elem_of_lookup. exists ri. apply list_lookup_insert_eq.
    by eapply lookup_lt_Some.
  - exists r0. split; [|done]. apply list_elem_of_lookup. exists k.
    by rewrite list_lookup_insert_ne.
Qed.

Lemma gameStep_roomCode questionIndex answer g g' :
  gameStep questionIndex answer g g' → Game.roomCode g' = Game.roomCode g.
Proof. by intros []. Qed.

Lemma storeOk_step payload st st' : storeOk st → storeStep payload st st' → storeOk st'.
Proof.
  intros [Hrooms Hgames Howner] Hstep.
  assert (∀ rs', roomsGrow (rooms st) rs' →
            Forall (λ g, ∃ r, r ∈ rs' ∧ Room.code r = Game.roomCode g
                              ∧ Room.status r ≠ waiting) (games st)) as Hkeep.
  { intros rs' Hgrow. eapply Forall_impl; [exact Howner|]. simpl.
    intros g (r & Hr & Hc & Hs). destruct (Hgrow r Hr) as (r' & ? & ? & ?).
    exists r'. split_and!; [done|congruence|auto]. }
  destruct Hstep as [->|r Hfresh ->|ri r r' Hri Hroom Hs ->
                    |ri r r' g Hri Hroom Hs Hfresh ->
                    |questionIndex answer gi g g' rs' _ Hgi Hgame Hrs ->];
    [done|split; simpl..].
  - apply Forall_app. split; [done|]. constructor; [by apply roomOk_fresh|constructor].
  - done.
  - apply Hkeep, roomsGrow_push.
  - apply Forall_insert; [done|].
    eapply roomOk_step; [|exact Hroom]. by apply (Forall_lookup_1 _ _ _ _ Hrooms Hri).
  - done.
  - apply Hkeep. destruct Hroom as (? & _). apply roomsGrow_insert with r; [done..|].
    by rewrite Hs.
  - apply Forall_insert; [done|].
    eapply roomOk_step; [|exact Hroom]. by apply (Forall_lookup_1 _ _ _ _ Hrooms Hri).
  - apply Forall_app. split; [done|]. constructor; [by eapply gameOk_fresh|constructor].
  - apply Forall_app. split.
    + apply Hkeep. destruct Hroom as (? & _). apply roomsGrow_insert with r; [done..|].
      by rewrite Hs.
    + constructor; [|constructor]. exists r'. split_and!.
      * apply list_elem_of_lookup. exists ri. apply list_lookup_insert_eq.
        by eapply lookup_lt_Some.
      * by destruct Hfresh as (-> & _).
      * by rewrite Hs.
  - destruct Hrs as [->|(_ & ri & r & Hri & _ & ->)]; [done|].
    apply Forall_insert; [done|]. destruct (Forall_lookup_1 _ _ _ _ Hrooms Hri). by split.
  - apply Forall_insert; [done|].
    eapply gameOk_step; [|exact Hgame]. by apply (Forall_lookup_1 _ _ _ _ Hgames Hgi).
  - assert (roomsGrow (rooms st) rs') as Hgrow.
    { destruct Hrs as [->|(_ & ri & r & Hri & _ & ->)]; [apply roomsGrow_refl|].
      by apply roomsGrow_insert with r. }
    apply Forall_insert; [by apply Hkeep|].
    rewrite (gameStep_roomCode _ _ _ _ Hgame).
    pose proof (Forall_lookup_1 _ _ _ _ (Hkeep rs' Hgrow) Hgi) as Hg. exact Hg.
Qed.

Lemma performAll_snoc actions a st :
  performAll (actions ++ [a]) st = perform a (performAll actions st).
Proof. unfold performAll. by rewrite foldl_app. Qed.

(** Every store built by handlers from the empty store is well formed. *)
Lemma performAll_ok actions : storeOk (performAll actions (mkStore [] [])).
Proof.
  induction actions as [|a actions IH] using rev_ind.
  - by split; constructor.
  - rewrite performAll_snoc. eapply storeOk_step; [exact IH|apply perform_step].
Qed.

Lemma scoreDelta_bounds isCorrect timeTaken :
  0 ≤ scoreDelta isCorrect timeTaken
  ∧ (isCorrect = true → 100 ≤ scoreDelta isCorrect timeTaken).
Proof. unfold scoreDelta, timeBonus. destruct isCorrect; split; try done; lia. Qed.

Lemma totalDelta_correct answers :
  100 * Z.of_nat (length (filter (λ a, Answer.isCorrect a = true) answers))
  ≤ totalDelta answers.
Proof.
  induction answers as [|a l IH]; [done|]. cbn [totalDelta foldr].
  fold (totalDelta l).
  pose proof (scoreDelta_bounds (Answer.isCorrect a) (Answer.timeTaken a)) as [H0 H100].
  destruct (decide (Answer.isCorrect a = true)) as [Hc|Hc].
  - rewrite filter_cons_True by done. specialize (H100 Hc). simpl length. lia.
  - rewrite filter_cons_False by done. lia.
Qed.

(** ** What the steps keep when the payloads are of the expected type *)

(** A property of games that new games have and that the submissions a
    condition admits keep holds of every game built by requests under that
    condition. *)
Lemma performAll_games (P : Game.t → Prop) (admitted : Action → Prop) :
  (∀ r g, freshGame r g → P g) →
  (∀ a questionIndex answer g g',
     admitted a → payloadOf a = Some (questionIndex, answer) →
     gameStep questionIndex answer g g' → P g → P g') →
  ∀ actions, Forall admitted actions →
    Forall P (games (performAll actions (mkStore [] []))).
Proof.
  intros Hfresh Hstep actions.
  induction actions as [|a actions IH] using rev_ind; [constructor|].
  intros [Hactions [Ha _]%Forall_cons]%Forall_app. specialize (IH Hactions).
  rewrite performAll_snoc. set (st := performAll actions _) in *.
  destruct (perform_step a st)
    as [->|r _ ->|ri r r' _ _ _ ->|ri r r' g _ _ _ Hg ->
       |questionIndex answer gi g g' rs' Hpayload Hgi Hgame _ ->]; simpl; try done.
  - apply Forall_app. split; [done|]. constructor; [by eapply Hfresh|constructor].
  - apply Forall_insert; [done|].
    eapply Hstep; [done..|]. by apply (Forall_lookup_1 _ _ _ _ IH Hgi).
Qed.

Lemma uniqueAnswers_fresh r g : freshGame r g → uniqueAnswers g.
Proof.
  intros (_ & _ & _ & Hs & _). unfold uniqueAnswers. rewrite Hs.
  apply Forall_fmap, Forall_forall. intros. simpl. constructor.
Qed.

(** A submission whose index is a number keeps the answers of an entry
    unique per question index. *)
Lemma uniqueAnswers_step (questionIndex : Z) answer g g' :
  gameStep (number questionIndex) answer g g' → uniqueAnswers g → uniqueAnswers g'.
Proof.
  intros [si entry question timeTaken _ Hfind Hfresh _ _ _ _ Hs _] Huniq.
  pose proof (list_find_lookup _ _ _ _ Hfind) as Hsi.
  unfold uniqueAnswers. rewrite Hs. apply Forall_insert; [done|]. simpl.
  rewrite fmap_app. apply NoDup_snoc.
  split; [by rewrite <- hasAnswer_elem|].
  apply (Forall_lookup_1 _ _ _ _ Huniq Hsi).
Qed.

Lemma exactAnswers_fresh r g : freshGame r g → exactAnswers g.
Proof.
  intros (_ & _ & _ & Hs & _). unfold exactAnswers. rewrite Hs.
  apply Forall_fmap, Forall_forall. intros. simpl. constructor.
Qed.

(** A submission whose answer is a string keeps the stored correctness of
    the answers that of their texts. *)
Lemma exactAnswers_step questionIndex (s : string) g g' :
  gameStep questionIndex (text s) g g' → exactAnswers g → exactAnswers g'.
Proof.
  intros [si entry question timeTaken _ Hfind _ Hq _ Hqs _ Hs _] Hexact.
  pose proof (list_find_lookup _ _ _ _ Hfind) as Hsi.
  unfold exactAnswers. rewrite Hs, Hqs. apply Forall_insert; [done|]. simpl.
  apply Forall_app. split; [apply (Forall_lookup_1 _ _ _ _ Hexact Hsi)|].
  constructor; [|constructor]. exists question. split; [done|]. simpl.
  apply bool_decide_ext. split; congruence.
Qed.

Lemma performAll_unique actions :
  Forall numericIndex actions →
  Forall uniqueAnswers (games (performAll actions (mkStore [] []))).
Proof.
  apply (performAll_games uniqueAnswers numericIndex); [apply uniqueAnswers_fresh|].
  intros a questionIndex answer g g' Ha Hp Hstep. unfold numericIndex in Ha.
  rewrite Hp in Ha. destruct questionIndex as [n|n]; [|done].
  by apply uniqueAnswers_step with n answer.
Qed.

Lemma performAll_exact actions :
  Forall textAnswer actions →
  Forall exactAnswers (games (performAll actions (mkStore [] []))).
Proof.
  apply (performAll_games exactAnswers textAnswer); [apply exactAnswers_fresh|].
  intros a questionIndex answer g g' Ha Hp Hstep. unfold textAnswer in Ha.
  rewrite Hp in Ha. destruct answer as [s|s]; [|by destruct questionIndex].
  by apply exactAnswers_step with questionIndex s.
Qed.

(** ** The stores the handlers build *)

(** X1. In every store built from the empty store by handlers whose
    submissions carry a safe integer as time taken, the score of a score
    entry is the sum of the increments of its recorded answers, and is at
    least 100 for each answer recorded as correct, as long as that sum is a
    safe integer: the sums that the handler computes on doubles are then
    exact. *)
Theorem built_score_is_sum actions :
  Forall safeTime actions →
  Forall (λ g,
    Forall (λ e,
      safeInteger (totalDelta (Score.answers e)) →
      Score.score e = totalDelta (Score.answers e)
      ∧ 100 * Z.of_nat (length (filter (λ a, Answer.isCorrect a = true) (Score.answers e)))
        ≤ Score.score e)
      (Game.scores g))
    (games (performAll actions Scenario.empty)).
Proof.
  intros _. destruct (performAll_ok actions) as [_ Hgames _].
  eapply Forall_impl; [exact Hgames|]. intros g Hg. simpl.
  eapply Forall_impl; [exact (ok_score g Hg)|]. intros e He _. simpl.
  split; [done|]. rewrite He. apply totalDelta_correct.
Qed.

Lemma built_score_is_sum_witness :
  Forall safeTime Scenario.doubled
  ∧ Forall (λ g,
      Forall (λ e,
        safeInteger (totalDelta (Score.answers e))
        ∧ Score.score e = totalDelta (Score.answers e))
        (Game.scores g))
      (games (performAll Scenario.doubled Scenario.empty)).
Proof.
  assert (Forall safeTime Scenario.doubled) as Hsafe by by_compute.
  split; [exact Hsafe|].
  assert (Forall (λ g, Forall (λ e, safeInteger (totalDelta (Score.answers e)))
                         (Game.scores g))
            (games (performAll Scenario.doubled Scenario.empty))) as Hsum by by_compute.
  pose proof (built_score_is_sum Scenario.doubled Hsafe) as Hbuilt.
  revert Hsum Hbuilt. generalize (games (performAll Scenario.doubled Scenario.empty)).
  intros gs Hsum Hbuilt. induction Hbuilt as [|g gs Hg _ IH]; [constructor|].
  apply Forall_cons in Hsum as [Hs Hsum]. constructor; [|by apply IH].
  revert Hs Hg. generalize (Game.scores g). intros es Hs Hg.
  induction Hg as [|e es He _ IHe]; [constructor|].
  apply Forall_cons in Hs as [Hse Hs]. constructor; [|by apply IHe].
  split; [exact Hse|exact (proj1 (He Hse))].
Defined.

(** X2. In every store built by handlers from the empty store, each
    recorded answer is for a question that exists in its game, and it is
    recorded as correct only if its text is that question's
    [correctAnswer].  When every answer was submitted as a string, the
    stored [isCorrect] is exactly the comparison of the text with the
    [correctAnswer]. *)
Theorem built_answers_valid actions :
  Forall (λ g,
    Forall (λ e, Forall (answerValid (Game.questions g)) (Score.answers e))
      (Game.scores g))
    (games (performAll actions Scenario.empty))
  ∧ (Forall textAnswer actions →
     Forall (λ g,
       Forall (λ e, Forall (answerExact (Game.questions g)) (Score.answers e))
         (Game.scores g))
       (games (performAll actions Scenario.empty))).
Proof.
  split.
  - destruct (performAll_ok actions) as [_ Hgames _].
    eapply Forall_impl; [exact Hgames|]. intros g Hg. exact (ok_valid g Hg).
  - intros Htext. pose proof (performAll_exact actions Htext) as Hexact.
    eapply Forall_impl; [exact Hexact|]. by intros g Hg.
Qed.

Lemma built_answers_valid_witness :
  Forall (λ g,
    Forall (λ e, Forall (answerExact (Game.questions g)) (Score.answers e))
      (Game.scores g))
    (games (performAll Scenario.doubled Scenario.empty)).
Proof.
  apply (proj2 (built_answers_valid Scenario.doubled)). by_compute.
Defined.

(** An answer that is not sent as a string is never correct for the
    handler, whatever text the schema stores for it: the year sent as a
    number is recorded with the text of the correct answer and as
    incorrect, and earns nothing. *)
Example numeric_answer_incorrect :
  let year := GameQuestion.mk "End of the war?" ["1945"; "1918"] "1945" 15000 in
  let game := Game.mk "1234" [year] 0 [Score.mk "ann" "Ann" 0 []] 1 None in
  let st := mkStore [] [game] in
  (Game.scores <$> games (submitAnswer "ann" 2 "1234" (number 0) (literal "1945") 500 st).1.1)
  = [[Score.mk "ann" "Ann" 0 [Answer.mk 0 "1945" false 500]]].
Proof. vm_compute. reflexivity. Qed.

(** X3. In every store built from the empty store by handlers whose
    submissions carry their question index as a number, a score entry holds
    at most one answer per question index, however often and in whatever
    order answers were submitted. *)
Theorem built_answers_unique actions :
  Forall numericIndex actions →
  Forall (λ g,
    Forall (λ e, NoDup (Answer.questionIndex <$> Score.answers e)) (Game.scores g))
    (games (performAll actions Scenario.empty)).
Proof.
  intros Hnumeric. pose proof (performAll_unique actions Hnumeric) as Hunique.
  eapply Forall_impl; [exact Hunique|]. by intros g Hg.
Qed.

Lemma built_answers_unique_witness :
  Forall (λ g,
    Forall (λ e, NoDup (Answer.questionIndex <$> Score.answers e)) (Game.scores g))
    (games (performAll Scenario.doubled Scenario.empty)).
Proof. apply built_answers_unique. by_compute. Defined.

(** X4. In every such store, [currentQuestion] is a valid index of the
    game's questions, or 0 when the game has no question. *)
Theorem built_currentQuestion_valid actions :
  Forall (λ g,
    0 ≤ Game.currentQuestion g
    ∧ (Game.currentQuestion g = 0
       ∨ Game.currentQuestion g < Z.of_nat (length (Game.questions g))))
    (games (performAll actions Scenario.empty)).
Proof.
  destruct (performAll_ok actions) as [_ Hgames _].
  eapply Forall_impl; [exact Hgames|]. intros g Hg. exact (ok_current g Hg).
Qed.

(** X5. In every such store, each room has at least one player, its first
    player is its host, and the [score] of every room player is 0: no
    handler ever writes it. *)
Theorem built_rooms_hosted actions :
  Forall (λ r,
    (∃ p ps, Room.players r = p :: ps ∧ Player.id p = Room.host r)
    ∧ Forall (λ p, Player.score p = 0) (Room.players r))
    (rooms (performAll actions Scenario.empty)).
Proof.
  destruct (performAll_ok actions) as [Hrooms _ _].
  eapply Forall_impl; [exact Hrooms|]. by intros r [? ?].
Qed.

(** X6. In every such store, a score entry that stands behind an earlier
    entry of the same player id never receives an answer, and a game that
    has such an entry is still at question 0 and has not ended: a player
    who was in the room twice blocks the barrier for good. *)
Theorem built_duplicate_player_stalls actions :
  Forall (λ g,
    (∀ j e, Game.scores g !! j = Some e → shadowed (Game.scores g) j →
            Score.answers e = [])
    ∧ ((∃ j, shadowed (Game.scores g) j) →
       Game.currentQuestion g = 0 ∧ Game.endedAt g = None))
    (games (performAll actions Scenario.empty)).
Proof.
  destruct (performAll_ok actions) as [_ Hgames _].
  eapply Forall_impl; [exact Hgames|]. intros g Hg.
  split; [exact (ok_shadowed g Hg)|exact (ok_stuck g Hg)].
Qed.

Lemma built_duplicate_player_stalls_witness :
  length (games (performAll Scenario.doubled Scenario.empty)) = 1%nat
  ∧ Forall (λ g,
      (Score.playerId <$> Game.scores g = ["ann"; "ann"]
       ∧ Score.score <$> Game.scores g = [200; 0])
      ∧ Game.currentQuestion g = 0 ∧ Game.endedAt g = None)
      (games (performAll Scenario.doubled Scenario.empty)).
Proof.
  split; [vm_compute; reflexivity|]. apply Forall_and. split; [by_compute|].
  assert (Forall (λ g, Score.playerId <$> Game.scores g = ["ann"; "ann"])
            (games (performAll Scenario.doubled Scenario.empty))) as Hids by by_compute.
  pose proof (built_duplicate_player_stalls Scenario.doubled) as Hbuilt.
  revert Hids Hbuilt. generalize (games (performAll Scenario.doubled Scenario.empty)).
  intros gs Hids Hbuilt. induction Hbuilt as [|g gs [_ Hstuck] _ IH]; [constructor|].
  apply Forall_cons in Hids as [Hg Hgs]. constructor; [|by apply IH].
  apply Hstuck. exists 1%nat. apply shadowed_ids. exists 0%nat, "ann".
  rewrite Hg. split_and!; [lia|done|done].
Defined.

(** X7. In every such store, each game carries the code of a room of the
    store that is no longer waiting. *)
Theorem built_games_owned actions :
  Forall (λ g,
    ∃ r, r ∈ rooms (performAll actions Scenario.empty)
         ∧ Room.code r = Game.roomCode g ∧ Room.status r ≠ waiting)
    (games (performAll actions Scenario.empty)).
Proof. by destruct (performAll_ok actions) as [_ _ Howner]. Qed.

(** ** What a single handler never does *)

Lemma storeStep_rooms payload st st' i r :
  storeStep payload st st' → rooms st !! i = Some r →
  ∃ r', rooms st' !! i = Some r' ∧ roomStep r r'.
Proof.
  assert (∀ ri r0 r0', rooms st !! ri = Some r0 → roomStep r0 r0' →
            rooms st !! i = Some r →
            ∃ r', <[ri:=r0']> (rooms st) !! i = Some r' ∧ roomStep r r') as Hins.
  { intros ri r0 r0' Hri Hroom Hi. destruct (decide (i = ri)) as [->|Hne].
    - exists r0'. split; [|congruence].
      apply list_lookup_insert_eq. by eapply lookup_lt_Some.
    - exists r. rewrite list_lookup_insert_ne by done. split; [done|apply roomStep_refl]. }
  intros [->|r0 Hfresh ->|ri r0 r0' Hri Hroom Hs ->
         |ri r0 r0' g Hri Hroom Hs Hfresh ->
         |questionIndex answer gi g g' rs' _ Hgi Hgame Hrs ->] Hi; simpl.
  - exists r. split; [done|apply roomStep_refl].
  - exists r. split; [by apply lookup_app_l_Some|apply roomStep_refl].
  - by eapply Hins.
  - by eapply Hins.
  - destruct Hrs as [->|(_ & ri & r0 & Hri & _ & ->)].
    + exists r. split; [done|apply roomStep_refl].
    + eapply Hins; [done| |done]. apply roomStep_status; [apply roomStep_refl|done].
Qed.

Lemma storeStep_games payload st st' i g :
  storeStep payload st st' → games st !! i = Some g →
  ∃ g', games st' !! i = Some g'
        ∧ (g' = g ∨ ∃ questionIndex answer, gameStep questionIndex answer g g').
Proof.
  intros [->|r0 Hfresh ->|ri r0 r0' Hri Hroom Hs ->
         |ri r0 r0' g0 Hri Hroom Hs Hfresh ->
         |questionIndex answer gi g0 g0' rs' _ Hgi Hgame Hrs ->] Hi; simpl;
    try (exists g; split; [done|by left]).
  - exists g. split; [by apply lookup_app_l_Some|by left].
  - destruct (decide (i = gi)) as [->|Hne].
    + exists g0'. split; [|right; exists questionIndex, answer; congruence].
      apply list_lookup_insert_eq. by eapply lookup_lt_Some.
    + exists g. rewrite list_lookup_insert_ne by done. split; [done|by left].
Qed.

Lemma storeStep_lengths payload st st' :
  storeStep payload st st' →
  (length (rooms st) ≤ length (rooms st') ≤ length (rooms st) + 1)%nat
  ∧ (length (games st) ≤ length (games st') ≤ length (games st) + 1)%nat.
Proof.
  intros [->|r0 Hfresh ->|ri r0 r0' Hri Hroom Hs ->
         |ri r0 r0' g0 Hri Hroom Hs Hfresh ->
         |questionIndex answer gi g0 g0' rs' _ Hgi Hgame Hrs ->]; simpl;
    rewrite ?length_app, ?length_insert; simpl; try lia.
  destruct Hrs as [->|(_ & ri & r0 & Hri & _ & ->)]; rewrite ?length_insert; lia.
Qed.

(** X8. No handler removes or reorders rooms, and each adds at most one.  A
    room keeps its code, host, category, quizCount, maxPlayers, isPublic
    and createdAt; its players stay in place with their id, name and score,
    new ones are only appended; and its status never returns to waiting. *)
Theorem perform_keeps_rooms a st i r :
  rooms st !! i = Some r →
  (length (rooms st) ≤ length (rooms (perform a st)) ≤ length (rooms st) + 1)%nat
  ∧ ∃ r', rooms (perform a st) !! i = Some r' ∧ roomStep r r'.
Proof.
  intros Hi. pose proof (perform_step a st) as Hstep. split.
  - by apply storeStep_lengths in Hstep as [? _].
  - by eapply storeStep_rooms.
Qed.

Lemma perform_keeps_rooms_witness :
  ∃ r',
    rooms (perform (DoPlayerReady
                      (mkCollaborators Scenario.localDb Scenario.noApi Scenario.backwards)
                      "ann" 1 "1234" true) Scenario.lobby) !! 0%nat = Some r'
    ∧ roomStep Scenario.room3 r'.
Proof.
  exact (proj2 (perform_keeps_rooms
                  (DoPlayerReady
                     (mkCollaborators Scenario.localDb Scenario.noApi Scenario.backwards)
                     "ann" 1 "1234" true) Scenario.lobby 0 Scenario.room3 eq_refl)).
Defined.

Lemma entries_kept (l : list Score.t) :
  Forall2 (λ e e', Score.playerId e' = Score.playerId e
                   ∧ Score.playerName e' = Score.playerName e
                   ∧ Score.score e ≤ Score.score e'
                   ∧ Score.answers e `prefix_of` Score.answers e') l l.
Proof. induction l; constructor; [|done]. split_and!; [done..|lia|done]. Qed.

Lemma gameStep_entries questionIndex answer g g' :
  gameStep questionIndex answer g g' →
  Forall2 (λ e e', Score.playerId e' = Score.playerId e
                   ∧ Score.playerName e' = Score.playerName e
                   ∧ Score.score e ≤ Score.score e'
                   ∧ Score.answers e `prefix_of` Score.answers e')
    (Game.scores g) (Game.scores g').
Proof.
  intros [si entry question timeTaken _ Hfind _ _ _ _ _ -> _].
  rewrite <- (list_insert_id _ _ _ (list_find_lookup _ _ _ _ Hfind)) at 1.
  apply Forall2_insert; [apply entries_kept|]. split_and!; [done..| |by eexists].
  simpl.
  pose proof (scoreDelta_bounds
                (bool_decide (text (GameQuestion.correctAnswer question) = answer))
                timeTaken).
  lia.
Qed.

(** X9. No handler removes or reorders games, and each adds at most one.  A
    game keeps its room code, questions and start date; its score entries
    stay in place with their player id and name, their score never
    decreases and their answers are only appended to; [currentQuestion]
    stays or goes up by one; and a game that has ended is never changed
    again. *)
Theorem perform_keeps_games a st i g :
  games st !! i = Some g →
  (length (games st) ≤ length (games (perform a st)) ≤ length (games st) + 1)%nat
  ∧ ∃ g',
      games (perform a st) !! i = Some g'
      ∧ Game.roomCode g' = Game.roomCode g
      ∧ Game.questions g' = Game.questions g
      ∧ Game.startedAt g' = Game.startedAt g
      ∧ Forall2 (λ e e', Score.playerId e' = Score.playerId e
                         ∧ Score.playerName e' = Score.playerName e
                         ∧ Score.score e ≤ Score.score e'
                         ∧ Score.answers e `prefix_of` Score.answers e')
          (Game.scores g) (Game.scores g')
      ∧ (Game.currentQuestion g' = Game.currentQuestion g
         ∨ Game.currentQuestion g' = Game.currentQuestion g + 1)
      ∧ (is_Some (Game.endedAt g) → g' = g).
Proof.
  intros Hi. pose proof (perform_step a st) as Hstep. split.
  - by apply storeStep_lengths in Hstep as [_ ?].
  - destruct (storeStep_games _ _ _ _ _ Hstep Hi) as (g' & Hg' & Hcases).
    exists g'. split; [done|].
    destruct Hcases as [->|(questionIndex & answer & Hgame)].
    { split_and!; auto. apply entries_kept. }
    pose proof (gameStep_entries _ _ _ _ Hgame) as Hentries.
    destruct Hgame as [si entry question timeTaken Hrun _ _ _ ? ? ? _ Hcase].
    split_and!; [done..| |].
    + destruct Hcase as [(-> & _)|[(-> & _)|(-> & _)]]; auto.
    + intros [d Hd]. congruence.
Qed.

Lemma perform_keeps_games_witness :
  ∃ g',
    games (perform (DoSubmitAnswer "ann" 2 "1234" (number 0) (text "Paris") 500)
             Scenario.started) !! 0%nat
    = Some g'
    ∧ Game.questions g' = Game.questions Scenario.startedGame.
Proof.
  destruct (proj2 (perform_keeps_games
                     (DoSubmitAnswer "ann" 2 "1234" (number 0) (text "Paris") 500)
                     Scenario.started 0 Scenario.startedGame
                     ltac:(vm_compute; reflexivity)))
    as (g' & Hg' & _ & Hq & _).
  by exists g'.
Defined.

(** ** Answers: bounds *)

Lemma index_None {A} (l : list A) (i : Z) :
  index l i = None ↔ i < 0 ∨ Z.of_nat (length l) ≤ i.
Proof.
  unfold index. destruct (decide (0 ≤ i)) as [Hi|Hi].
  - rewrite lookup_ge_None. lia.
  - split; [lia|done].
Qed.

(** X10. A submission that passes the guards but names a question index
    outside the game's questions (negative, or not below their number),
    whether as a number or as a string of digits, makes the handler throw
    into its [catch]: the error is logged, nothing is recorded and nothing
    is emitted.  Inside the range the handler returns normally and first
    emits [answerReceived] with the index as it was sent. *)
Theorem submitAnswer_index_bounds uid now roomCode questionIndex answer timeTaken st
    gi game entry :
  findGame roomCode st = Some (gi, game) →
  Game.endedAt game = None →
  playerEntry uid game = Some entry →
  ¬ seen questionIndex entry →
  let result := submitAnswer uid now roomCode questionIndex answer timeTaken st in
  let position := numberOf questionIndex in
  (position < 0 ∨ Z.of_nat (length (Game.questions game)) ≤ position →
   result = (st, [], Logged "TypeError"))
  ∧ (0 ≤ position < Z.of_nat (length (Game.questions game)) →
     result.2 = Returned
     ∧ ∃ isCorrect,
         head result.1.2 = Some (roomCode, answerReceived uid questionIndex isCorrect)).
Proof.
  intros Hg Hr He Hf result position. subst result position.
  unfold submitAnswer, playerEntry in *.
  rewrite Hg, Hr. destruct (list_find _ (Game.scores game)) as [[si e]|]; [|done].
  simpl in He. injection He as ->. apply find_answer_None in Hf. rewrite Hf. split.
  - intros Hout%index_None. by rewrite Hout.
  - intros Hin. destruct (index _ _) as [question|] eqn:Hq;
      [|apply index_None in Hq; lia].
    unfold acceptAnswer. destruct (forallb _ _); [destruct (decide _)|]; simpl;
      (split; [done|by eexists]).
Qed.

Lemma submitAnswer_index_bounds_witness :
  submitAnswer "ann" 2 "1234" (number 3) (text "Paris") 500 Scenario.started
  = (Scenario.started, [], Logged "TypeError").
Proof.
  refine (proj1 (submitAnswer_index_bounds "ann" 2 "1234" (number 3) (text "Paris") 500
                   Scenario.started
                   0 Scenario.startedGame Scenario.startedEntry _ _ _ _) _).
  - vm_compute. reflexivity.
  - reflexivity.
  - reflexivity.
  - intros (a & Ha & _)%hasAnswer_alt. by apply elem_of_nil in Ha.
  - right. simpl. lia.
Defined.

(** X11. The increment for a correct answer never grows with the time
    taken; it lies between 100 and 200 for a time that is not negative, is
    200 below one second and 100 from ten seconds on; a negative time is not
    rejected and earns more than 200. *)
Theorem scoreDelta_by_time :
  (∀ t1 t2, t1 ≤ t2 → scoreDelta true t2 ≤ scoreDelta true t1)
  ∧ (∀ t, 0 ≤ t → 100 ≤ scoreDelta true t ≤ 200)
  ∧ (∀ t, 0 ≤ t < 1000 → scoreDelta true t = 200)
  ∧ (∀ t, 10000 ≤ t → scoreDelta true t = 100)
  ∧ (∀ t, t < 0 → 200 < scoreDelta true t).
Proof.
  unfold scoreDelta, timeBonus. split_and!.
  - intros t1 t2 H. pose proof (Z.div_le_mono t1 t2 1000 ltac:(lia) H). lia.
  - intros t H. pose proof (Z.div_pos t 1000 H ltac:(lia)). lia.
  - intros t H. rewrite (Z.div_small t 1000) by lia. lia.
  - intros t H. pose proof (Z.div_le_mono 10000 t 1000 ltac:(lia) H) as Hd.
    change (10000 / 1000) with 10 in Hd. lia.
  - intros t H. assert (t / 1000 < 0) by (apply Z.div_lt_upper_bound; lia). lia.
Qed.

(** ** Joining and matching *)

(** X12. A join by code that answers with an error leaves the store as it
    was and emits nothing.  A join that answers with a room had found a
    waiting room with a free place; the room answered is that room with the
    requester appended, it is what a lookup by the code and a socket
    [joinRoom] then give, it is the payload of the single [roomUpdated]
    emitted, and no other room and no game has changed. *)
Theorem joinRoom_effect uid code playerName st :
  let result := joinRoom uid code playerName st in
  (∀ status error, result.2 = json_error status error →
     result.1.1 = st ∧ result.1.2 = [])
  ∧ (∀ room', result.2 = json_room room' →
       ∃ i room,
         findRoom code st = Some (i, room)
         ∧ Room.status room = waiting
         ∧ (Qc_of_Z (Z.of_nat (length (Room.players room))) < Room.maxPlayers room)%Qc
         ∧ room' = Room.set_players (Room.players room ++ [newPlayer uid playerName]) room
         ∧ findRoom code result.1.1 = Some (i, room')
         ∧ joinRoomSocket code result.1.1 = [roomUpdated room']
         ∧ result.1.2 = [(code, roomUpdated room')]
         ∧ games result.1.1 = games st
         ∧ ∀ j, j ≠ i → rooms result.1.1 !! j = rooms st !! j).
Proof.
  intros result. subst result. unfold joinRoom.
  destruct (findRoom code st) as [[i room]|] eqn:Hf; [|by split].
  destruct (decide _) as [Hfull|Hfree]; [by split|].
  destruct (decide _) as [Hs|Hs]; [by split|].
  rewrite (pushPlayer_saveRoom i room) by by eapply list_find_lookup.
  simpl. split; [done|].
  intros room' [= <-]. exists i, room.
  pose proof (list_find_holds _ _ _ _ Hf) as Hc. simpl in Hc.
  assert (findRoom code
            (saveRoom i (Room.set_players (Room.players room ++ [newPlayer uid playerName])
                           room) st)
          = Some (i, Room.set_players (Room.players room ++ [newPlayer uid playerName]) room))
    as Hf' by by apply findRoom_saveRoom with room.
  split_and!; try done.
  - by destruct (Room.status room); try done; destruct Hs.
  - by apply Qcnot_le_lt.
  - unfold joinRoomSocket. by rewrite Hf'.
  - by rewrite Hc.
  - intros j Hj. simpl. by rewrite list_lookup_insert_ne.
Qed.

Lemma joinRoom_effect_witness :
  (joinRoom "bob" "1234" "Bob" Scenario.lobby).2 = json_error 400 "Room is full"
  ∧ (joinRoom "bob" "1234" "Bob" Scenario.lobby).1.1 = Scenario.lobby.
Proof.
  assert ((joinRoom "bob" "1234" "Bob" Scenario.lobby).2 = json_error 400 "Room is full")
    as H by (vm_compute; reflexivity).
  split; [exact H|].
  exact (proj1 (proj1 (joinRoom_effect "bob" "1234" "Bob" Scenario.lobby) _ _ H)).
Defined.

Lemma joinRoom_capacity_witness :
  Forall withinCapacity (rooms (joinRoom "bob" "1234" "Bob" Scenario.lobby).1.1).
Proof.
  refine (proj1 (joinRoom_capacity "bob" "1234" "Bob" Scenario.lobby _ _)).
  - by_compute.
  - intros i room Hf.
    assert (findRoom "1234" Scenario.lobby = Some (0%nat, Scenario.room3)) as Hroom
      by (vm_compute; reflexivity).
    rewrite Hroom in Hf. injection Hf as _ <-. by exists 1.
Defined.

(** X14. A quick-match request keeps every room within its capacity
    provided every room it could pick (public, category Random, waiting,
    fewer than two players) allows two players, as the rooms it creates
    itself do. *)
Theorem quickMatch_within_capacity uid draw now playerName st :
  Forall withinCapacity (rooms st) →
  Forall (λ r, quickMatchable r → (Qc_of_Z 2 ≤ Room.maxPlayers r)%Qc) (rooms st) →
  let st' := (quickMatch uid draw now playerName st).1 in
  Forall withinCapacity (rooms st')
  ∧ Forall (λ r, quickMatchable r → (Qc_of_Z 2 ≤ Room.maxPlayers r)%Qc) (rooms st').
Proof.
  intros Hcap Htwo st'. subst st'. unfold quickMatch, quickMatch_save.
  destruct (quickMatch_find st) as [[i room]|] eqn:Hf; cbn [fst].
  - pose proof (list_find_lookup _ _ _ _ Hf) as Hi.
    pose proof (list_find_holds _ _ _ _ Hf) as Hq.
    pose proof (Forall_lookup_1 _ _ _ _ Htwo Hi Hq) as Hmax.
    destruct Hq as (_ & _ & _ & Hone). apply lookup_ge_None in Hone.
    rewrite (pushPlayer_saveRoom i room) by done.
    split; (apply Forall_insert; [done|]).
    + unfold withinCapacity. simpl. rewrite length_app. simpl.
      apply Qcle_trans with (Qc_of_Z 2); [|done]. rewrite <- Z2Qc_inj_le. lia.
    + by intros (_ & _ & _ & _).
  - split; (apply Forall_app; split; [done|]); constructor; try constructor.
    + unfold withinCapacity. simpl. by rewrite <- Z2Qc_inj_le.
    + done.
Qed.

Lemma quickMatch_within_capacity_witness :
  Forall withinCapacity
    (rooms (quickMatch "bob" 5678 1 "Bob"
              (quickMatch "ann" 1234 0 "Ann" Scenario.empty).1).1).
Proof.
  refine (proj1 (quickMatch_within_capacity "bob" 5678 1 "Bob"
                   (quickMatch "ann" 1234 0 "Ann" Scenario.empty).1 _ _)).
  - by_compute.
  - by_compute.
Defined.

(** ** Creating and looking up *)

(** X15. Creating a room never changes what a lookup by code found before.
    The new room is found under its own code exactly when that code was
    free: then it sits behind all rooms, waiting, with its host as only
    player; when the code was taken, the code keeps leading to the older
    room. *)
Theorem createRoom_lookup uid draw now category quizCount maxPlayers playerName
    isPublic st :
  let result :=
    createRoom uid draw now category quizCount maxPlayers playerName isPublic st in
  (∀ code found, findRoom code st = Some found → findRoom code result.1 = Some found)
  ∧ (findRoom (toString draw) st = None →
     ∃ room,
       result.2 = json_room room
       ∧ findRoom (toString draw) result.1 = Some (length (rooms st), room)
       ∧ Room.host room = uid
       ∧ Room.players room = [newPlayer uid playerName]
       ∧ Room.status room = waiting).
Proof.
  intros result. subst result. unfold createRoom, findRoom, insertRoom. simpl. split.
  - intros code [i r] Hf. by apply list_find_app_l.
  - intros Hnone. eexists. split; [done|]. split; [|done].
    rewrite list_find_app_r by done. simpl. by rewrite decide_True.
Qed.

Lemma createRoom_lookup_witness :
  ∃ room,
    findRoom "1234" (createRoom "bob" 1234 5 "History" 5 (Qc_of_Z 4) "Bob" true Scenario.lobby).1
    = Some (0%nat, room)
    ∧ Room.host room = "ann".
Proof.
  exists Scenario.room3. split; [|reflexivity].
  exact (proj1 (createRoom_lookup "bob" 1234 5 "History" 5 (Qc_of_Z 4) "Bob" true Scenario.lobby)
           "1234" (0%nat, Scenario.room3) eq_refl).
Defined.

(** X16. Starting a game never changes which game a code leads to: when a
    game exists under the room's code, submissions and GET
    /api/games/:roomCode keep reading that older game and the new one is
    never read.  When none existed and the questions could be fetched, the
    new game is the one read: at question 0, running, with one entry per
    room player in room order, each with score 0 and no answer, and one
    question of 15 seconds per fetched question. *)
Theorem startGame_lookup dbSample apiGet shuffleArray now ri room st :
  let st' := (startGame dbSample apiGet shuffleArray now ri room st).1 in
  (∀ code found, findGame code st = Some found → findGame code st' = Some found)
  ∧ (∀ questions,
       fetchQuestions dbSample apiGet shuffleArray (Room.category room)
         (Room.quizCount room) = Some questions →
       findGame (Room.code room) st = None →
       ∃ game,
         getGame (Room.code room) st' = json_game game
         ∧ Game.currentQuestion game = 0
         ∧ Game.endedAt game = None
         ∧ Game.scores game
           = (λ p, Score.mk (Player.id p) (Player.name p) 0 []) <$> Room.players room
         ∧ Game.questions game
           = (λ q, GameQuestion.mk (Fetched.text q) (Fetched.options q)
                     (Fetched.correctAnswer q) 15000) <$> questions).
Proof.
  intros st'. subst st'. unfold startGame. split.
  - intros code [i g] Hf. destruct (fetchQuestions _ _ _ _ _); [|done].
    simpl. unfold findGame in *. simpl. by apply list_find_app_l.
  - intros questions -> Hnone. simpl.
    exists (Game.mk (Room.code room) (toGameQuestion <$> questions) 0
              (toScore <$> Room.players room) now None).
    split; [|done].
    unfold getGame, findGame in *. simpl.
    rewrite list_find_app_r by done. simpl. by rewrite decide_True.
Qed.

Lemma startGame_lookup_witness :
  ∃ game, getGame "1234" Scenario.started = json_game game
          ∧ Game.currentQuestion game = 0.
Proof.
  pose (room := Room.set_players [Player.mk "ann" "Ann" true 0] Scenario.room3).
  assert (fetchQuestions Scenario.localDb Scenario.noApi Scenario.backwards
            (Room.category room) (Room.quizCount room)
          = Some (project <$> [Scenario.capital; Scenario.planet; Scenario.metal])) as Hq
    by (vm_compute; reflexivity).
  assert (findGame (Room.code room) (saveRoom 0 room Scenario.lobby) = None) as Hnone
    by (vm_compute; reflexivity).
  destruct (proj2 (startGame_lookup Scenario.localDb Scenario.noApi Scenario.backwards
                     1 0 room (saveRoom 0 room Scenario.lobby)) _ Hq Hnone)
    as (game & Hgame & Hc & _).
  exists game. split; [exact Hgame|exact Hc].
Defined.

(** ** Readying and starting *)

(** X17. A [playerReady] event never starts a game, never changes a status
    and never adds a game when it withdraws readiness or when the room does
    not have exactly one player; all it changes is the [ready] flag of the
    first player under the sender's id. *)
Theorem playerReady_without_start dbSample apiGet shuffleArray uid now roomCode
    isReady st ri room :
  findRoom roomCode st = Some (ri, room) →
  isReady = false ∨ length (Room.players room) ≠ 1%nat →
  let result := playerReady dbSample apiGet shuffleArray uid now roomCode isReady st in
  games result.1.1 = games st
  ∧ Room.status <$> rooms result.1.1 = Room.status <$> rooms st
  ∧ (∀ pi player,
       list_find (λ p, Player.id p = uid) (Room.players room) = Some (pi, player) →
       rooms result.1.1
       = <[ri:=Room.set_players (<[pi:=Player.set_ready isReady player]> (Room.players room))
                 room]> (rooms st))
  ∧ Forall (λ e, ∀ i q n, e.2 ≠ gameStarted i q n) result.1.2.
Proof.
  intros Hf Hno result. subst result. unfold playerReady. rewrite Hf.
  destruct (list_find _ (Room.players room)) as [[pi player]|] eqn:Hp;
    [|by split_and!].
  pose proof (list_find_lookup _ _ _ _ Hf) as Hri.
  pose proof (list_find_lookup _ _ _ _ Hp) as Hpi.
  set (ps := <[pi:=Player.set_ready isReady player]> (Room.players room)).
  assert (Room.status <$> <[ri:=Room.set_players ps room]> (rooms st)
          = Room.status <$> rooms st) as Hstatus.
  { rewrite list_fmap_insert. apply list_insert_id. by rewrite list_lookup_fmap, Hri. }
  assert (forallb Player.ready ps && bool_decide (1 ≤ length ps)%nat = true →
          length ps ≠ 1%nat) as Hmany.
  { intros [Hall _]%andb_true_iff. destruct Hno as [->|Hlen].
    - exfalso. rewrite forallb_forall in Hall.
      assert (Player.set_ready false player ∈ ps) as Hin.
      { apply list_elem_of_lookup. exists pi. apply list_lookup_insert_eq.
        by eapply lookup_lt_Some. }
      apply list_elem_of_In in Hin. by apply Hall in Hin.
    - unfold ps. by rewrite length_insert. }
  cbn [Room.players Room.set_players].
  destruct (_ && _) eqn:Hall.
  - destruct (decide _) as [Hone|_]; [by apply Hmany in Hone|].
    simpl. split_and!; [done|done|by intros ? ? [= <- <-]|by repeat constructor].
  - simpl. split_and!; [done|done|by intros ? ? [= <- <-]|by repeat constructor].
Qed.

Lemma playerReady_without_start_witness :
  games (playerReady Scenario.localDb Scenario.noApi Scenario.backwards
           "ann" 1 "1234" false Scenario.lobby).1.1 = [].
Proof.
  exact (proj1 (playerReady_without_start Scenario.localDb Scenario.noApi
                  Scenario.backwards "ann" 1 "1234" false Scenario.lobby 0 Scenario.room3
                  ltac:(vm_compute; reflexivity) (or_introl eq_refl))).
Defined.

(** A [startGame] event has an effect only when it comes from the host of a
    room that is waiting; it then runs [startGame] whatever the [ready]
    flags of the players are.  From anyone else, for an unknown room or for
    a room past waiting it changes nothing and emits nothing. *)
Lemma startGameRequest_effect dbSample apiGet shuffleArray uid now roomCode st :
  let result := startGameRequest dbSample apiGet shuffleArray uid now roomCode st in
  match findRoom roomCode st with
  | Some (ri, room) =>
      (Room.host room = uid ∧ Room.status room = waiting →
       (result.1.1, result.1.2) = startGame dbSample apiGet shuffleArray now ri room st)
      ∧ (Room.host room ≠ uid ∨ Room.status room ≠ waiting →
         result = (st, [], Returned))
  | None => result = (st, [], Returned)
  end.
Proof.
  intros result. subst result. unfold startGameRequest.
  destruct (findRoom roomCode st) as [[ri room]|]; [|done].
  destruct (decide _) as [Hyes|Hno].
  - split; [by destruct (startGame _ _ _ _ _ _ _)|]. intros [?|?]; by destruct Hyes.
  - split; [done|]. done.
Qed.

(** ** Fetching questions *)

Section Fetching.

Variable dbSample : string → Z → option (list Question.t).
Variable apiGet : Z → CategoryId → option (list ApiQuestion.t).
Variable shuffleArray : list string → list string.

(** X19. [fetchQuestions] keeps every locally sampled question, in sample
    order, at the front of its result.  When the sample already holds
    [count] questions the external API is not consulted: the result is the
    sample whatever the API would answer, even if it would fail.  When the
    sample holds at most [count] documents, as [$sample] promises, the
    result never holds more than [count] questions. *)
Theorem fetchQuestions_local_first category count docs :
  dbSample category count = Some docs →
  (∀ questions,
     fetchQuestions dbSample apiGet shuffleArray category count = Some questions →
     take (length docs) questions = project <$> docs
     ∧ (Z.of_nat (length docs) ≤ count → Z.of_nat (length questions) ≤ count))
  ∧ (count ≤ Z.of_nat (length docs) →
     ∀ apiGet', fetchQuestions dbSample apiGet' shuffleArray category count
                = Some (project <$> docs)).
Proof.
  intros Hdb. unfold fetchQuestions. rewrite Hdb, length_fmap. split.
  - intros questions Hf. destruct (decide _) as [Hlt|Hge].
    + destruct (apiGet _ _) as [results|]; [|done]. injection Hf as <-.
      unfold slice0. rewrite decide_True by lia. split.
      * rewrite take_take, Nat.min_l by lia.
        rewrite take_app_le by (rewrite length_fmap; lia).
        apply take_ge. by rewrite length_fmap.
      * intros _. rewrite length_take. lia.
    + injection Hf as <-. rewrite length_fmap. split; [|done].
      apply take_ge. by rewrite length_fmap.
  - intros Hge apiGet'. by rewrite decide_False by lia.
Qed.

End Fetching.

Lemma fetchQuestions_local_first_witness :
  fetchQuestions Scenario.localDb Scenario.smallApi Scenario.backwards "Geography" 3
  = Some (project <$> [Scenario.capital; Scenario.planet; Scenario.metal]).
Proof.
  exact (proj2 (fetchQuestions_local_first Scenario.localDb Scenario.noApi
                  Scenario.backwards "Geography" 3
                  [Scenario.capital; Scenario.planet; Scenario.metal] eq_refl)
           ltac:(simpl; lia) Scenario.smallApi).
Defined.

(** ** Decoding HTML entities *)

Lemma string_length_app (s1 s2 : string) :
  String.length (s1 +:+ s2) = (String.length s1 + String.length s2)%nat.
Proof. induction s1 as [|c s1 IH]; simpl; [done|]. by rewrite IH. Qed.

Lemma prefix_length (p s : string) :
  String.prefix p s = true → (String.length p ≤ String.length s)%nat.
Proof.
  revert p. induction s as [|c s IH]; intros [|a p]; simpl; try done; try lia.
  destruct (Ascii.ascii_dec a c); [|done]. intros ?%IH. lia.
Qed.

Lemma replaceAll_go_length pat rep skip s :
  (String.length rep ≤ String.length pat)%nat →
  (String.length (replaceAll_go pat rep skip s) + skip `min` String.length s
   ≤ String.length s)%nat.
Proof.
  intros Hrep. revert skip. induction s as [|c s IH]; intros skip; [simpl; lia|].
  cbn [replaceAll_go]. destruct skip as [|k].
  - destruct (String.prefix pat (String c s)) eqn:Hp.
    + apply prefix_length in Hp. simpl in Hp.
      specialize (IH (Nat.pred (String.length pat))).
      rewrite string_length_app. simpl. lia.
    + specialize (IH 0%nat). simpl. lia.
  - specialize (IH k). simpl. lia.
Qed.

Lemma replaceAll_length pat rep s :
  (String.length rep ≤ String.length pat)%nat →
  (String.length (replaceAll pat rep s) ≤ String.length s)%nat.
Proof.
  intros Hrep. pose proof (replaceAll_go_length pat rep 0 s Hrep). unfold replaceAll. lia.
Qed.

(** X21. Decoding never lengthens a text: every entity is replaced by a
    single character. *)
Theorem decodeHtmlEntities_length text :
  (String.length (decodeHtmlEntities text) ≤ String.length text)%nat.
Proof.
  unfold decodeHtmlEntities.
  repeat (etrans; [apply replaceAll_length; simpl; lia|]). done.
Qed.

Lemma replaceAll_no_first c pat rep s :
  c ∉ String.list_ascii_of_string s → replaceAll (String c pat) rep s = s.
Proof.
  unfold replaceAll. induction s as [|a s IH]; [done|].
  intros [Ha Hs]%not_elem_of_cons. cbn [replaceAll_go String.prefix].
  destruct (Ascii.ascii_dec c a) as [->|_]; [done|]. by rewrite IH.
Qed.

(** X20. A text without the character [&] is left as it is. *)
Theorem decodeHtmlEntities_plain text :
  ampersand ∉ String.list_ascii_of_string text → decodeHtmlEntities text = text.
Proof.
  intros Hno. unfold decodeHtmlEntities.
  change "&quot;" with (String ampersand "quot;").
  change "&amp;" with (String ampersand "amp;").
  change "&lt;" with (String ampersand "lt;").
  change "&gt;" with (String ampersand "gt;").
  change "&#039;" with (String ampersand "#039;").
  rewrite (replaceAll_no_first ampersand "quot;" _ text Hno).
  rewrite (replaceAll_no_first ampersand "amp;" _ text Hno).
  rewrite (replaceAll_no_first ampersand "lt;" _ text Hno).
  rewrite (replaceAll_no_first ampersand "gt;" _ text Hno).
  exact (replaceAll_no_first ampersand "#039;" _ text Hno).
Qed.

Lemma decodeHtmlEntities_plain_witness :
  decodeHtmlEntities "Capital of France?" = "Capital of France?".
Proof. apply decodeHtmlEntities_plain. by_compute. Defined.

(** ** Authentication *)

Lemma string_app_cons c (s1 s2 : string) : String c s1 +:+ s2 = String c (s1 +:+ s2).
Proof. done. Qed.

Lemma string_app_nil (s : string) : "" +:+ s = s.
Proof. done. Qed.

Lemma string_app_nil_r (s : string) : s +:+ "" = s.
Proof. induction s as [|c s IH]; [done|]. by rewrite string_app_cons, IH. Qed.

Lemma split_word (word rest : string) :
  space ∉ String.list_ascii_of_string word →
  split space (word +:+ String space rest) = word :: split space rest.
Proof.
  induction word as [|c word IH]; rewrite ?string_app_cons, ?string_app_nil;
    cbn [split String.list_ascii_of_string].
  - intros _. by destruct (decide (space = space)).
  - intros [Hc Hw]%not_elem_of_cons.
    destruct (decide (c = space)) as [->|_]; [done|]. by rewrite IH.
Qed.

Lemma split_last_word (word : string) :
  space ∉ String.list_ascii_of_string word → split space word = [word].
Proof.
  induction word as [|c word IH]; cbn [split String.list_ascii_of_string]; [done|].
  intros [Hc Hw]%not_elem_of_cons.
  destruct (decide (c = space)) as [->|_]; [done|]. by rewrite IH.
Qed.

Lemma split_second (scheme token rest : string) :
  space ∉ String.list_ascii_of_string scheme →
  space ∉ String.list_ascii_of_string token →
  rest = "" ∨ (∃ more, rest = String space more) →
  split space (scheme +:+ String space (token +:+ rest)) !! 1%nat = Some token.
Proof.
  intros Hs Ht Hrest. rewrite split_word by done. simpl.
  destruct Hrest as [->|[more ->]].
  - rewrite string_app_nil_r. by rewrite split_last_word.
  - by rewrite split_word.
Qed.

Section Authentication.

Variable verifyIdToken : string → option string.

(** X22. The middleware takes the second space-separated word of the
    Authorization header as the token, whatever the first word is (it need
    not be Bearer and may be empty) and whatever follows a further space;
    the request goes on with the uid the provider decodes from that token
    and is denied with 401 "Invalid token" when the provider rejects it.
    The socket middleware gives the same verdict on the bare token. *)
Theorem verifyToken_second_word scheme token rest :
  space ∉ String.list_ascii_of_string scheme →
  space ∉ String.list_ascii_of_string token →
  token ≠ "" →
  rest = "" ∨ (∃ more, rest = String space more) →
  verifyToken verifyIdToken (Some (scheme +:+ String space (token +:+ rest)))
  = match verifyIdToken token with
    | Some uid => next uid
    | None => denied 401 "Invalid token"
    end
  ∧ (∀ uid,
       verifyToken verifyIdToken (Some (scheme +:+ String space (token +:+ rest)))
       = next uid
       ↔ socketAuth verifyIdToken (Some token) = connected uid).
Proof.
  intros Hs Ht Hne Hrest. unfold verifyToken, socketAuth. simpl.
  rewrite split_second by done. rewrite !decide_False by done.
  split; [done|]. intros uid. destruct (verifyIdToken token); split; congruence.
Qed.

(** X23. A request without Authorization header, with a header that holds
    no space, or with a header whose first space is at its end or is
    followed by another space, is denied with 401 "Unauthorized" and the
    identity provider is not consulted. *)
Theorem verifyToken_unauthorized authorization :
  authorization = None
  ∨ (∃ word, authorization = Some word ∧ space ∉ String.list_ascii_of_string word)
  ∨ (∃ scheme rest,
       (space ∉ String.list_ascii_of_string scheme)
       ∧ (rest = "" ∨ ∃ more, rest = String space more)
       ∧ authorization = Some (scheme +:+ String space rest)) →
  verifyToken verifyIdToken authorization = denied 401 "Unauthorized".
Proof.
  unfold verifyToken.
  intros [->|[(word & -> & Hw)|(scheme & rest & Hs & Hrest & ->)]]; simpl.
  - done.
  - by rewrite split_last_word.
  - rewrite split_word by done. destruct Hrest as [->|[more ->]]; simpl; [done|].
    by destruct (decide (space = space)).
Qed.

End Authentication.

Lemma verifyToken_second_word_witness :
  verifyToken (λ token, if decide (token = "t0k3n") then Some "ann" else None)
    (Some "Basic t0k3n and more")
  = next "ann".
Proof.
  exact (proj1 (verifyToken_second_word
                  (λ token, if decide (token = "t0k3n") then Some "ann" else None)
                  "Basic" "t0k3n" " and more"
                  ltac:(by_compute) ltac:(by_compute) ltac:(done)
                  (or_intror (ex_intro _ "and more" eq_refl)))).
Defined.

Lemma verifyToken_unauthorized_witness :
  verifyToken (λ token, Some token) (Some "Bearer") = denied 401 "Unauthorized".
Proof.
  apply verifyToken_unauthorized. right. left. exists "Bearer". split; [done|by_compute].
Defined.

(** ** Room codes *)

Lemma toString_four_digits draw :
  1000 ≤ draw ≤ 9999 → String.length (toString draw) = 4%nat.
Proof.
  intros Hd.
  assert (Forall (λ d, String.length (toString d) = 4%nat) (seqZ 1000 9000)) as Hall
    by by_compute.
  apply (proj1 (Forall_forall _ _) Hall). apply elem_of_seqZ. lia.
Qed.

(** X24. A room created from a draw between 1000 and 9999, the range of
    [Math.floor(1000 + Math.random() * 9000)], has a code of four
    characters, and two rooms get the same code only from the same draw. *)
Theorem createRoom_code_shape uid draw now category quizCount maxPlayers playerName
    isPublic st :
  1000 ≤ draw ≤ 9999 →
  ∃ room,
    (createRoom uid draw now category quizCount maxPlayers playerName isPublic st).2
    = json_room room
    ∧ String.length (Room.code room) = 4%nat
    ∧ ∀ uid' draw' now' category' quizCount' maxPlayers' playerName' isPublic' st' room',
        (createRoom uid' draw' now' category' quizCount' maxPlayers' playerName'
           isPublic' st').2 = json_room room' →
        Room.code room' = Room.code room → draw' = draw.
Proof.
  intros Hd. eexists. split; [done|]. split; [by apply toString_four_digits|].
  intros ? draw' ? ? ? ? ? ? ? room' [= <-]. simpl. unfold toString.
  apply (inj pretty).
Qed.

Lemma createRoom_code_shape_witness :
  ∃ room,
    (createRoom "ann" 1234 0 "Geography" 3 (Qc_of_Z 1) "Ann" false Scenario.empty).2
    = json_room room
    ∧ String.length (Room.code room) = 4%nat.
Proof.
  destruct (createRoom_code_shape "ann" 1234 0 "Geography" 3 (Qc_of_Z 1) "Ann" false Scenario.empty
              ltac:(lia)) as (room & Hr & Hlen & _).
  by exists room.
Defined.

(** ** The final ranking *)

Lemma sort_insert_filter (v : Z) x l :
  sortedDesc l →
  filter (λ e, Score.score e = v) (sort_insert byScoreDesc x l)
  = filter (λ e, Score.score e = v) (x :: l).
Proof.
  unfold sortedDesc. induction 1 as [|y l Hl IH Hy]; [done|].
  cbn [sort_insert]. unfold byScoreDesc at 1.
  destruct (decide _) as [Hle|Hgt]; [done|].
  rewrite (filter_cons _ y (sort_insert _ _ _)), IH, !filter_cons.
  repeat case_decide; try done; lia.
Qed.

(** X25. The ranking sent with [gameEnded] is the score entries sorted by
    descending score with ties left in their stored order: it is a
    permutation of the entries, scores never increase along it, and the
    entries of any one score appear in it in the order they have in the
    game. *)
Theorem ranking_stable (scores : list Score.t) :
  sort byScoreDesc scores ≡ₚ scores
  ∧ sortedDesc (sort byScoreDesc scores)
  ∧ ∀ v, filter (λ e, Score.score e = v) (sort byScoreDesc scores)
         = filter (λ e, Score.score e = v) scores.
Proof.
  split_and!; [apply sort_Permutation|apply sort_sortedDesc|].
  intros v. induction scores as [|x l IH]; [done|].
  change (sort byScoreDesc (x :: l)) with (sort_insert byScoreDesc x (sort byScoreDesc l)).
  rewrite sort_insert_filter by apply sort_sortedDesc.
  by rewrite !filter_cons, IH.
Qed.

(** ** The public listing *)

(** X26. Every room a quick-match request can join is shown by GET
    /api/rooms/public, and a room that the listing does not show is not
    shown after any later handler either: a game once started keeps its
    room out of the listing and out of quick-match. *)
Theorem listing_monotone a st i r :
  rooms st !! i = Some r →
  (∀ j room, quickMatch_find st = Some (j, room) → room ∈ publicRooms st)
  ∧ (r ∉ publicRooms st →
     ∃ r', rooms (perform a st) !! i = Some r'
           ∧ (r' ∉ publicRooms (perform a st))
           ∧ ¬ quickMatchable r').
Proof.
  intros Hi. split.
  - intros j room Hf. unfold publicRooms. apply list_elem_of_filter.
    pose proof (list_find_holds _ _ _ _ Hf) as (? & _ & ? & _).
    split; [done|]. apply list_elem_of_lookup. exists j. by eapply list_find_lookup.
  - intros Hout.
    assert (¬ (Room.isPublic r = true ∧ Room.status r = waiting)) as Hr.
    { intros Hp. apply Hout, list_elem_of_filter. split; [done|].
      apply list_elem_of_lookup. by exists i. }
    destruct (storeStep_rooms _ _ _ _ _ (perform_step a st) Hi)
      as (r' & Hi' & (_ & _ & _ & _ & _ & Hpub & _ & _ & Hstat)).
    exists r'. split; [done|].
    assert (¬ (Room.isPublic r' = true ∧ Room.status r' = waiting)) as Hr'.
    { intros [Hp Hs]. apply Hr. split; [congruence|auto]. }
    split.
    + by intros [? _]%list_elem_of_filter.
    + intros (? & _ & ? & _). by apply Hr'.
Qed.

Lemma listing_monotone_witness :
  ∃ r', rooms (perform (DoJoinRoom "bob" "1234" "Bob") Scenario.started) !! 0%nat = Some r'
        ∧ ¬ quickMatchable r'.
Proof.
  destruct (proj2 (listing_monotone (DoJoinRoom "bob" "1234" "Bob") Scenario.started 0
                     (Room.mk "1234" "ann" "Geography" 3 (Qc_of_Z 1)
                        [Player.mk "ann" "Ann" true 0] false in_progress 0)
                     ltac:(vm_compute; reflexivity)))
    as (r' & Hr' & _ & Hq).
  - intros [[_ Hs] _]%list_elem_of_filter. discriminate Hs.
  - by exists r'.
Defined.

(** ** Starting, then answering *)

(** X18. Start and first answer compose.  When the host of a waiting room
    that has no game yet sends [startGame] and at least one question is
    fetched, the room is in progress, and a first answer to question 0 from
    any player of the room is accepted: [answerReceived] is emitted with
    the comparison of the answer with the first fetched question's
    [correctAnswer], and, the time taken being a safe integer, the player's
    score is the increment of that one answer.  The [ready] flags play no
    part. *)
Theorem start_then_answer dbSample apiGet shuffleArray host now roomCode st ri room
    question questions p now' answer timeTaken :
  safeInteger timeTaken →
  findRoom roomCode st = Some (ri, room) →
  Room.host room = host →
  Room.status room = waiting →
  findGame roomCode st = None →
  fetchQuestions dbSample apiGet shuffleArray (Room.category room) (Room.quizCount room)
  = Some (question :: questions) →
  p ∈ Room.players room →
  let st1 := (startGameRequest dbSample apiGet shuffleArray host now roomCode st).1.1 in
  let result := submitAnswer (Player.id p) now' roomCode (number 0) answer timeTaken st1 in
  let isCorrect := bool_decide (text (Fetched.correctAnswer question) = answer) in
  statusOf roomCode st1 = Some in_progress
  ∧ head result.1.2 = Some (roomCode, answerReceived (Player.id p) (number 0) isCorrect)
  ∧ scoreOf (Player.id p) roomCode result.1.1 = Some (scoreDelta isCorrect timeTaken).
Proof.
  intros _ Hroom Hhost Hwait Hnone Hfetch Hp st1 result isCorrect.
  pose proof (list_find_holds _ _ _ _ Hroom) as Hcode. simpl in Hcode.
  set (game := Game.mk (Room.code room) (toGameQuestion <$> question :: questions) 0
                 (toScore <$> Room.players room) now None).
  assert (st1 = saveRoom ri (Room.set_status in_progress room) (insertGame game st)) as Hst1.
  { subst st1. unfold startGameRequest. rewrite Hroom, decide_True by done.
    unfold startGame. by rewrite Hfetch. }
  assert (findGame roomCode st1 = Some (length (games st), game)) as Hgame.
  { rewrite Hst1, findGame_saveRoom. unfold findGame in *. simpl.
    rewrite list_find_app_r by done. simpl. by rewrite decide_True. }
  destruct (list_find (λ s, Score.playerId s = Player.id p) (Game.scores game))
    as [[si entry]|] eqn:Hentry.
  2: { apply list_find_None in Hentry. simpl in Hentry.
       apply Forall_fmap, Forall_forall with (x := p) in Hentry; [|done]. by destruct Hentry. }
  assert (Score.score entry = 0 ∧ Score.answers entry = []) as [Hzero Hnil].
  { apply list_find_lookup in Hentry. simpl in Hentry.
    rewrite list_lookup_fmap in Hentry. destruct (Room.players room !! si); [|done].
    by injection Hentry as <-. }
  assert (Accepted (Player.id p) roomCode (number 0) st1 (length (games st)) game si entry
            (toGameQuestion question)) as Hacc.
  { split; [done..| |done]. simpl. rewrite hasAnswer_alt, Hnil.
    intros (a & Ha & _). by apply elem_of_nil in Ha. }
  split_and!.
  - rewrite Hst1. unfold statusOf.
    by rewrite (findRoom_saveRoom roomCode ri room (Room.set_status in_progress room)).
  - subst result. rewrite (submitAnswer_accepted _ _ _ _ _ _ _ _ _ _ _ _ Hacc).
    unfold acceptAnswer. by destruct (forallb _ _); [destruct (decide _)|].
  - subst result. rewrite (submitAnswer_accepted _ _ _ _ _ _ _ _ _ _ _ _ Hacc).
    destruct (acceptAnswer_game (Player.id p) now' roomCode (number 0) answer timeTaken st1
                _ game si entry _ Hacc) as (game' & Hg' & Hs' & _).
    unfold scoreOf, gameOf. rewrite Hg'. simpl.
    erewrite playerEntry_insert; [|exact Hentry| |exact Hs']; [|done].
    simpl. rewrite Hzero. by rewrite Z.add_0_l.
Qed.

Lemma start_then_answer_witness :
  scoreOf "ann" "1234"
    (submitAnswer "ann" 2 "1234" (number 0) (text "Paris") 11000
       (startGameRequest Scenario.localDb Scenario.noApi Scenario.backwards
          "ann" 1 "1234" Scenario.lobby).1.1).1.1
  = Some 100.
Proof.
  refine (proj2 (proj2 (start_then_answer Scenario.localDb Scenario.noApi
                          Scenario.backwards "ann" 1 "1234" Scenario.lobby 0 Scenario.room3
                          (project Scenario.capital)
                          (project <$> [Scenario.planet; Scenario.metal])
                          (newPlayer "ann" "Ann") 2 (text "Paris") 11000 _ _ _ _ _ _ _))).
  - by_compute.
  - vm_compute. reflexivity.
  - reflexivity.
  - reflexivity.
  - reflexivity.
  - vm_compute. reflexivity.
  - apply list_elem_of_here.
Defined.

(** ** A whole session *)

Lemma answered_push (questionIndex : Z) (entry : Score.t) a :
  Answer.questionIndex a = questionIndex →
  answered (number questionIndex) (recordAnswer a entry) = true.
Proof.
  intros Hq. apply answered_seen, hasAnswer_alt. exists a. split; [|done].
  simpl. apply elem_of_app. right. apply list_elem_of_here.
Qed.

(** One player of a running game, alone in it, who has answered exactly
    the questions before [k], answers the remaining ones in turn. *)
Lemma answerInTurn_alone uid roomCode inputs :
  ∀ k st gi game entry,
    findGame roomCode st = Some (gi, game) →
    Game.endedAt game = None →
    Game.scores game = [entry] →
    Score.playerId entry = uid →
    Forall (λ a, Answer.questionIndex a < k) (Score.answers entry) →
    Game.currentQuestion game = k →
    0 ≤ k →
    k + Z.of_nat (length inputs) = Z.of_nat (length (Game.questions game)) →
    inputs ≠ [] →
    ∃ game' entry',
      findGame roomCode (answerInTurn uid roomCode k inputs st) = Some (gi, game')
      ∧ is_Some (Game.endedAt game')
      ∧ Game.currentQuestion game' = Z.of_nat (length (Game.questions game)) - 1
      ∧ Game.questions game' = Game.questions game
      ∧ Game.scores game' = [entry']
      ∧ length (Score.answers entry')
        = (length (Score.answers entry) + length inputs)%nat
      ∧ rooms (answerInTurn uid roomCode k inputs st)
        = match findRoom roomCode st with
          | Some (ri, room) => <[ri:=Room.set_status completed room]> (rooms st)
          | None => rooms st
          end.
Proof.
  induction inputs as [|[[now answer] timeTaken] inputs IH]; [done|].
  intros k st gi game entry Hg Hrun Hscores Hid Hbefore Hcur Hk Hlen _.
  pose proof (list_find_holds _ _ _ _ Hg) as Hcode. simpl in Hcode.
  assert (∃ question, index (Game.questions game) k = Some question) as [question Hq].
  { destruct (index (Game.questions game) k) eqn:Hi; [by eexists|].
    apply index_None in Hi. simpl in Hlen. lia. }
  assert (Accepted uid roomCode (number k) st gi game 0 entry question) as Hacc.
  { split; [done|done| |  |done].
    - rewrite Hscores. simpl. by rewrite decide_True.
    - intros (a & Ha & Hqa)%hasAnswer_alt.
      apply (proj1 (Forall_forall _ _) Hbefore) in Ha. lia. }
  cbn [answerInTurn]. rewrite (submitAnswer_accepted _ _ _ _ _ _ _ _ _ _ _ _ Hacc).
  unfold acceptAnswer. rewrite answerOf_fold.
  set (a := answerOf (number k) answer timeTaken question).
  rewrite Hscores.
  change (<[0%nat:=recordAnswer a entry]> [entry]) with [recordAnswer a entry].
  cbn [Game.scores Game.set_scores forallb].
  rewrite (answered_push k entry a eq_refl). cbn [andb Game.currentQuestion Game.questions].
  set (game1 := Game.set_scores [recordAnswer a entry] game).
  destruct (decide _) as [Hlt|Hge]; cbn [fst];
    [unfold game1 in Hlt; simpl in Hlt|unfold game1 in Hge; simpl in Hge].
  - rewrite saveGame_saveGame.
    set (game2 := Game.set_currentQuestion (Game.currentQuestion game + 1) game1).
    destruct inputs as [|input inputs]; [simpl in Hlen; lia|].
    destruct (IH (k + 1) (saveGame gi game2 st) gi game2 (recordAnswer a entry))
      as (game' & entry' & Hg' & Hend & Hc' & Hq' & Hs' & Hn' & Hrooms);
      [by apply findGame_saveGame with game|done|done|done| |simpl; lia|lia| |done|].
    + simpl. apply Forall_app. split.
      * eapply Forall_impl; [exact Hbefore|]. simpl. intros. lia.
      * constructor; [simpl; lia|constructor].
    + simpl in Hlen |- *. lia.
    + exists game', entry'. split_and!; [done..| |done].
      rewrite Hn'. simpl. rewrite length_app. simpl. lia.
  - rewrite saveGame_saveGame.
    destruct inputs as [|input inputs]; [|simpl in Hlen; lia].
    cbn [answerInTurn]. rewrite findRoom_saveGame.
    exists (Game.set_endedAt now game1), (recordAnswer a entry).
    assert (findGame roomCode (saveGame gi (Game.set_endedAt now game1) st)
            = Some (gi, Game.set_endedAt now game1)) as Hg'
      by by apply findGame_saveGame with game.
    destruct (findRoom roomCode st) as [[ri room]|]; rewrite ?findGame_saveRoom;
      (split_and!; [done|by eexists|simpl in *; lia|done|done| |done]);
      simpl; rewrite length_app; simpl; lia.
Qed.

(** X27. A session played alone runs to its end.  In a running game at
    question 0 whose single score entry holds no answer yet, answering each
    question once, in order, whatever the answers and times, ends the game
    with the last answer: [endedAt] is set, [currentQuestion] is the last
    index, the entry holds one answer per question, and the room found
    under the code is completed. *)
Theorem alone_session_completes uid roomCode inputs st gi game entry :
  findGame roomCode st = Some (gi, game) →
  Game.endedAt game = None →
  Game.scores game = [entry] →
  Score.playerId entry = uid →
  Score.answers entry = [] →
  Game.currentQuestion game = 0 →
  length inputs = length (Game.questions game) →
  inputs ≠ [] →
  let st' := answerInTurn uid roomCode 0 inputs st in
  (∃ game' entry',
     gameOf roomCode st' = Some game'
     ∧ is_Some (Game.endedAt game')
     ∧ Game.currentQuestion game' = Z.of_nat (length (Game.questions game)) - 1
     ∧ Game.scores game' = [entry']
     ∧ length (Score.answers entry') = length (Game.questions game))
  ∧ (is_Some (findRoom roomCode st) → statusOf roomCode st' = Some completed).
Proof.
  intros Hg Hrun Hscores Hid Hnil Hcur Hlen Hne st'.
  destruct (answerInTurn_alone uid roomCode inputs 0 st gi game entry)
    as (game' & entry' & Hg' & Hend & Hc' & _ & Hs' & Hn' & Hrooms);
    [done..|by rewrite Hnil|done|done|lia|done|].
  split.
  - exists game', entry'. unfold gameOf. subst st'. rewrite Hg'.
    split_and!; [done..|]. rewrite Hn', Hnil. simpl. lia.
  - intros [[ri room] Hroom]. subst st'. unfold statusOf, findRoom in *.
    rewrite Hrooms, Hroom.
    rewrite (list_find_insert_same (λ r, Room.code r = roomCode) _ ri room
               (Room.set_status completed room) Hroom); [done|].
    apply (list_find_holds _ _ _ _ Hroom).
Qed.

Lemma alone_session_completes_witness :
  statusOf "1234"
    (answerInTurn "ann" "1234" 0
       [(2, text "Paris", 500); (3, text "Mars", 900); (4, text "Iron", 12000)]
       Scenario.started)
  = Some completed.
Proof.
  refine (proj2 (alone_session_completes "ann" "1234"
                   [(2, text "Paris", 500); (3, text "Mars", 900); (4, text "Iron", 12000)]
                   Scenario.started 0 Scenario.startedGame Scenario.startedEntry
                   _ _ _ _ _ _ _ _) _).
  - vm_compute. reflexivity.
  - reflexivity.
  - reflexivity.
  - reflexivity.
  - reflexivity.
  - reflexivity.
  - reflexivity.
  - done.
  - by eexists.
Defined.
